(** * WealthArena: the feature-engineering and upsert pipeline

    A shallow embedding of [Data/sqlDB/processAndStore.py]:
    [read_raw_csv], [compute_features], [load_stage], [merge_stage] and
    the driver [main], followed by the properties of the pipeline.

    Numbers.  A pandas float64 cell is modelled by [float64]: the three
    IEEE special values NaN, +inf, -inf, or a finite value carried as a
    real number.  Arithmetic on finite values is exact (rounding and the
    sign of zero are not modelled); the special values follow IEEE 754.
    Where a property turns on rounding or on overflow, the rolling
    columns are evaluated on binary64 numbers by the module [F64], with
    the running-sum kernels pandas uses; statements that relate two
    columns are written with the operations of the code ([fadd],
    [fsub], [fmul], [fdiv]) so that they do not depend on exactness.

    pandas.  The repository calls [rolling], [ewm], [shift],
    [pct_change], [fillna], [replace] and [dropna]; their embeddings
    below follow the pandas algorithms for the arguments the source
    passes. *)

From Stdlib Require Import Floats.
From Stdlib Require Import String Ascii.
From Stdlib Require Import Reals Lra Lia ZArith Bool Arith List.
From Stdlib Require Import Sorted Permutation.
Import ListNotations.

(* ================================================================= *)
(** ** Exceptions and fallible results *)

Inductive exn : Type :=
| KeyError          (* a selected column is absent *)
| ValueError        (* to_datetime over several columns; int(nan) *)
| TypeError         (* to_numeric over several columns *)
| OverflowError     (* int(inf) *)
| IOError           (* fs.open / pd.read_csv failed *)
| MergeMultiMatch   (* MERGE: one target row matched by several source rows *)
| PrimaryKeyViolation.

Inductive result (A : Type) : Type :=
| Ok (a : A)
| Raise (e : exn).

Arguments Ok {A} a.
Arguments Raise {A} e.

Definition bind {A B} (m : result A) (k : A -> result B) : result B :=
  match m with
  | Ok a => k a
  | Raise e => Raise e
  end.

Notation "x <- m ;; k" := (bind m (fun x => k))
  (at level 61, m at next level, right associativity).

Fixpoint mapM {A B} (f : A -> result B) (xs : list A) : result (list B) :=
  match xs with
  | [] => Ok []
  | x :: rest =>
      y <- f x ;;
      ys <- mapM f rest ;;
      Ok (y :: ys)
  end.

(* ================================================================= *)
(** ** float64 values *)

Inductive float64 : Type :=
| NaN
| PInf
| NInf
| Fin (r : R).

Definition notna (x : float64) : bool :=
  match x with NaN => false | _ => true end.

Definition is_fin (x : float64) : bool :=
  match x with Fin _ => true | _ => false end.

(** The real carried by a finite value (0 for the special values). *)
Definition fin_val (x : float64) : R :=
  match x with Fin r => r | _ => 0%R end.

(** Sign of a real: [Lt] negative, [Eq] zero, [Gt] positive. *)
Definition Rsign (r : R) : comparison :=
  match total_order_T r 0 with
  | inleft (left _) => Lt
  | inleft (right _) => Eq
  | inright _ => Gt
  end.

Definition fneg (x : float64) : float64 :=
  match x with
  | NaN => NaN
  | PInf => NInf
  | NInf => PInf
  | Fin r => Fin (- r)
  end.

Definition fadd (x y : float64) : float64 :=
  match x, y with
  | NaN, _ | _, NaN => NaN
  | PInf, NInf | NInf, PInf => NaN
  | PInf, _ | _, PInf => PInf
  | NInf, _ | _, NInf => NInf
  | Fin a, Fin b => Fin (a + b)
  end.

Definition fsub (x y : float64) : float64 := fadd x (fneg y).

(** An infinity with the sign of [s] (the product or quotient sign). *)
Definition inf_of_sign (positive : bool) (s : comparison) : float64 :=
  match s with
  | Eq => NaN
  | Gt => if positive then PInf else NInf
  | Lt => if positive then NInf else PInf
  end.

Definition fmul (x y : float64) : float64 :=
  match x, y with
  | NaN, _ | _, NaN => NaN
  | Fin a, Fin b => Fin (a * b)
  | PInf, PInf | NInf, NInf => PInf
  | PInf, NInf | NInf, PInf => NInf
  | PInf, Fin b | Fin b, PInf => inf_of_sign true (Rsign b)
  | NInf, Fin b | Fin b, NInf => inf_of_sign false (Rsign b)
  end.

Definition fdiv (x y : float64) : float64 :=
  match x, y with
  | NaN, _ | _, NaN => NaN
  | Fin a, Fin b =>
      match Rsign b with
      | Eq => inf_of_sign true (Rsign a)       (* a/0: +-inf, 0/0: nan *)
      | _ => Fin (a / b)
      end
  | Fin _, _ => Fin 0
  | PInf, Fin b => match Rsign b with Lt => NInf | _ => PInf end
  | NInf, Fin b => match Rsign b with Lt => PInf | _ => NInf end
  | _, _ => NaN                                 (* inf/inf *)
  end.

(** [np.log]. *)
Definition np_log (x : float64) : float64 :=
  match x with
  | NaN | NInf => NaN
  | PInf => PInf
  | Fin r =>
      match Rsign r with
      | Gt => Fin (ln r)
      | Eq => NInf
      | Lt => NaN
      end
  end.

(** Python [int(x)] on a float: truncation toward zero; [int(nan)] and
    [int(inf)] raise. *)
Definition Ztrunc (r : R) : Z :=
  match Rsign r with
  | Lt => Zceil r
  | _ => Zfloor r
  end.

Definition py_int (x : float64) : result Z :=
  match x with
  | Fin r => Ok (Ztrunc r)
  | NaN => Raise ValueError
  | _ => Raise OverflowError
  end.

(** Python [float(x)] on a float is the identity. *)
Definition py_float (x : float64) : float64 := x.

(* ================================================================= *)
(** ** Series (pandas columns) *)

Definition series := list float64.

Definition at_ (s : series) (t : nat) : float64 := nth t s NaN.

Fixpoint map2 {A B C} (f : A -> B -> C) (xs : list A) (ys : list B) : list C :=
  match xs, ys with
  | x :: xs', y :: ys' => f x y :: map2 f xs' ys'
  | _, _ => []
  end.

(** Window operations first turn infinities into NaN
    ([BaseWindow._prep_values]); [Series.replace([inf,-inf], nan)] is
    the same map. *)
Definition inf_to_nan (x : float64) : float64 :=
  match x with Fin _ => x | _ => NaN end.

Definition prep_values (s : series) : series := map inf_to_nan s.

Definition replace_inf_nan (s : series) : series := map inf_to_nan s.

Definition fillna (v : float64) (s : series) : series :=
  map (fun x => match x with NaN => v | _ => x end) s.

(** [Series.shift(k)]: [k] leading NaN, same length. *)
Definition shift (k : nat) (s : series) : series :=
  firstn (length s) (repeat NaN k ++ s).

(** The trailing window of [n] samples ending at position [t]. *)
Definition window (n t : nat) (s : series) : series :=
  firstn n (skipn (S t - n) s).

(** The reals of a window, if every sample is finite. *)
Fixpoint all_fin (s : series) : option (list R) :=
  match s with
  | [] => Some []
  | Fin r :: rest =>
      match all_fin rest with
      | Some rs => Some (r :: rs)
      | None => None
      end
  | _ :: _ => None
  end.

Definition Rsum (rs : list R) : R := fold_right Rplus 0%R rs.

Definition Rmean (rs : list R) : R := (Rsum rs / INR (length rs))%R.

(** Sum of squared deviations from the mean. *)
Definition ssqdm (rs : list R) : R :=
  Rsum (map (fun x => ((x - Rmean rs) * (x - Rmean rs))%R) rs).

(** Variance with [ddof] delta degrees of freedom. *)
Definition Rvar (ddof : nat) (rs : list R) : R :=
  (ssqdm rs / INR (length rs - ddof))%R.

(** [Series.rolling(n)] with the default [min_periods = n]: a value only
    where the window is full and holds [n] non-null samples. *)
Definition rolling (n : nat) (agg : list R -> float64) (s : series) : series :=
  map (fun t =>
         if n <=? S t then
           match all_fin (window n t (prep_values s)) with
           | Some rs => agg rs
           | None => NaN
           end
         else NaN)
      (seq 0 (length s)).

Definition rolling_mean (n : nat) (s : series) : series :=
  rolling n (fun rs => Fin (Rmean rs)) s.

(** [rolling(n).std()]: pandas' default [ddof = 1]. *)
Definition rolling_std (n : nat) (s : series) : series :=
  rolling n (fun rs => if 1 <? length rs then Fin (sqrt (Rvar 1 rs)) else NaN) s.

(** [ewm(span, adjust=False).mean()], pandas' [ewm] kernel with
    [com = (span-1)/2], [alpha = 1/(1+com)], [min_periods = 0],
    [ignore_na = False]. *)
Definition ewm_alpha (span : R) : R := (1 / (1 + (span - 1) / 2))%R.

Fixpoint ewm_loop (alpha : R) (weighted : float64) (old_wt : R)
                  (s : series) : series :=
  match s with
  | [] => []
  | cur :: rest =>
      let '(w', ow') :=
        match weighted, cur with
        | Fin w, Fin c =>
            let ow := (old_wt * (1 - alpha))%R in
            (if Req_dec_T w c then Fin w
             else Fin ((ow * w + alpha * c) / (ow + alpha)), 1%R)
        | Fin w, _ => (weighted, (old_wt * (1 - alpha))%R)
        | _, Fin c => (cur, old_wt)
        | _, _ => (weighted, old_wt)
        end in
      w' :: ewm_loop alpha w' ow' rest
  end.

Definition ewm_mean (span : R) (s : series) : series :=
  match prep_values s with
  | [] => []
  | x0 :: rest => x0 :: ewm_loop (ewm_alpha span) x0 1 rest
  end.

(** Forward fill, as [pct_change] applies it before differencing
    (its default [fill_method='pad']). *)
Fixpoint ffill_from (last : float64) (s : series) : series :=
  match s with
  | [] => []
  | NaN :: rest => last :: ffill_from last rest
  | x :: rest => x :: ffill_from x rest
  end.

Definition ffill (s : series) : series := ffill_from NaN s.

Definition pct_change (s : series) : series :=
  let data := ffill s in
  map (fun x => fsub x (Fin 1)) (map2 fdiv data (shift 1 data)).

(* ================================================================= *)
(** ** Frames *)

(** A calendar date ([datetime.date]) as its proleptic ordinal. *)
Definition date_t := Z.

(** One row of the frame [read_raw_csv] returns. *)
Record RawBar : Type := mkRawBar {
  bar_open : float64;
  bar_high : float64;
  bar_low : float64;
  bar_close : float64;
  bar_volume : float64;
  bar_date : date_t
}.

(** One row of the frame [compute_features] returns, columns in the
    order of the final selection. *)
Record FeatureRow : Type := mkFeatureRow {
  Open : float64;
  High : float64;
  Low : float64;
  Close : float64;
  Volume : float64;
  date : date_t;
  Sma_5 : float64;
  Sma_10 : float64;
  Sma_20 : float64;
  Sma_50 : float64;
  Sma_200 : float64;
  Ema_12 : float64;
  Ema_26 : float64;
  Macd : float64;
  Macd_Signal : float64;
  Macd_Hist : float64;
  Bb_Middle : float64;
  Bb_Upper : float64;
  Bb_Lower : float64;
  Returns : float64;
  Log_Returns : float64;
  Volatility_20 : float64;
  Momentum_20 : float64;
  Volume_Sma_20 : float64;
  Volume_Ratio : float64
}.

(* ================================================================= *)
(** ** compute_features *)

(** The columns [compute_features] adds, each as a function of the
    [Close] and [Volume] columns. *)
Module Col.

Definition Sma (n : nat) (close : series) : series := rolling_mean n close.

Definition Ema_12 (close : series) : series := ewm_mean 12 close.
Definition Ema_26 (close : series) : series := ewm_mean 26 close.
Definition Macd (close : series) : series :=
  map2 fsub (Ema_12 close) (Ema_26 close).
Definition Macd_Signal (close : series) : series := ewm_mean 9 (Macd close).
Definition Macd_Hist (close : series) : series :=
  map2 fsub (Macd close) (Macd_Signal close).

Definition mid (close : series) : series := Sma 20 close.
Definition std20 (close : series) : series := rolling_std 20 close.
Definition Bb_Middle (close : series) : series := mid close.
Definition Bb_Upper (close : series) : series :=
  map2 fadd (mid close) (map (fmul (Fin 2)) (std20 close)).
Definition Bb_Lower (close : series) : series :=
  map2 fsub (mid close) (map (fmul (Fin 2)) (std20 close)).

Definition Returns (close : series) : series :=
  fillna (Fin 0) (pct_change close).
Definition Log_Returns (close : series) : series :=
  fillna (Fin 0)
    (replace_inf_nan (map np_log (map2 fdiv close (shift 1 close)))).

Definition Volatility_20 (close : series) : series :=
  rolling_std 20 (Log_Returns close).
Definition Momentum_20 (close : series) : series :=
  map2 fsub close (shift 20 close).
Definition Volume_Sma_20 (vol : series) : series := rolling_mean 20 vol.
Definition Volume_Ratio (vol : series) : series :=
  map2 fdiv vol (Volume_Sma_20 vol).

End Col.

Definition compute_features (df : list RawBar) : list FeatureRow :=
  let close := map bar_close df in
  let vol := map bar_volume df in
  map (fun t =>
         let b := nth t df (mkRawBar NaN NaN NaN NaN NaN 0%Z) in
         {| Open := bar_open b;
            High := bar_high b;
            Low := bar_low b;
            Close := bar_close b;
            Volume := bar_volume b;
            date := bar_date b;
            Sma_5 := at_ (Col.Sma 5 close) t;
            Sma_10 := at_ (Col.Sma 10 close) t;
            Sma_20 := at_ (Col.Sma 20 close) t;
            Sma_50 := at_ (Col.Sma 50 close) t;
            Sma_200 := at_ (Col.Sma 200 close) t;
            Ema_12 := at_ (Col.Ema_12 close) t;
            Ema_26 := at_ (Col.Ema_26 close) t;
            Macd := at_ (Col.Macd close) t;
            Macd_Signal := at_ (Col.Macd_Signal close) t;
            Macd_Hist := at_ (Col.Macd_Hist close) t;
            Bb_Middle := at_ (Col.Bb_Middle close) t;
            Bb_Upper := at_ (Col.Bb_Upper close) t;
            Bb_Lower := at_ (Col.Bb_Lower close) t;
            Returns := at_ (Col.Returns close) t;
            Log_Returns := at_ (Col.Log_Returns close) t;
            Volatility_20 := at_ (Col.Volatility_20 close) t;
            Momentum_20 := at_ (Col.Momentum_20 close) t;
            Volume_Sma_20 := at_ (Col.Volume_Sma_20 vol) t;
            Volume_Ratio := at_ (Col.Volume_Ratio vol) t |})
      (seq 0 (length df)).

(** [DataFrame.dropna(subset=["Close"])]. *)
Definition dropna_Close (df : list FeatureRow) : list FeatureRow :=
  filter (fun r => notna (Close r)) df.

(* ================================================================= *)
(** ** Strings: header normalization and symbol names *)

(** A character is a code point below 256; these are the ones Python
    counts as white space (U+0009-000D, U+001C-0020, U+0085, U+00A0). *)
Definition is_space (c : ascii) : bool :=
  let n := nat_of_ascii c in
  ((9 <=? n) && (n <=? 13)) || ((28 <=? n) && (n <=? 32))
  || (n =? 133) || (n =? 160).

Definition is_upper (c : ascii) : bool :=
  let n := nat_of_ascii c in (65 <=? n) && (n <=? 90).

Definition is_lower (c : ascii) : bool :=
  let n := nat_of_ascii c in (97 <=? n) && (n <=? 122).

Definition to_upper (c : ascii) : ascii :=
  if is_lower c then ascii_of_nat (nat_of_ascii c - 32) else c.

Definition to_lower (c : ascii) : ascii :=
  if is_upper c then ascii_of_nat (nat_of_ascii c + 32) else c.

Fixpoint lstrip (s : string) : string :=
  match s with
  | String c r => if is_space c then lstrip r else s
  | EmptyString => EmptyString
  end.

Fixpoint rstrip (s : string) : string :=
  match s with
  | EmptyString => EmptyString
  | String c r =>
      match rstrip r with
      | EmptyString => if is_space c then EmptyString else String c EmptyString
      | r' => String c r'
      end
  end.

(** [str.strip()]. *)
Definition strip (s : string) : string := rstrip (lstrip s).

(** [str.title()]: a letter is upper-cased after an uncased character
    and lower-cased after a cased one. *)
Fixpoint title_from (previous_is_cased : bool) (s : string) : string :=
  match s with
  | EmptyString => EmptyString
  | String c r =>
      let c' :=
        if is_lower c then (if previous_is_cased then c else to_upper c)
        else if is_upper c then (if previous_is_cased then to_lower c else c)
        else c in
      String c' (title_from (is_lower c || is_upper c) r)
  end.

Definition title (s : string) : string := title_from false s.

(** [str.upper()]. *)
Fixpoint upper (s : string) : string :=
  match s with
  | EmptyString => EmptyString
  | String c r => String (to_upper c) (upper r)
  end.

Fixpoint has_slash (s : string) : bool :=
  match s with
  | EmptyString => false
  | String c r => Ascii.eqb c "/" || has_slash r
  end.

(** [Path(p).name]: the text after the last slash. *)
Fixpoint path_name (s : string) : string :=
  match s with
  | EmptyString => EmptyString
  | String c r =>
      if has_slash r then path_name r
      else if Ascii.eqb c "/" then r else s
  end.

(** [s.replace(pat, "")]: every occurrence of [pat], left to right;
    [skip] characters of a match are still to be dropped. *)
Fixpoint remove_from (pat : string) (skip : nat) (s : string) : string :=
  match s with
  | EmptyString => EmptyString
  | String c r =>
      match skip with
      | S k => remove_from pat k r
      | O =>
          if (0 <? String.length pat) && String.prefix pat s
          then remove_from pat (String.length pat - 1) r
          else String c (remove_from pat 0 r)
      end
  end.

Definition symbol_of (abfs_path : string) : string :=
  upper (remove_from "_raw.csv" 0 (path_name abfs_path)).

(* ================================================================= *)
(** ** read_raw_csv *)

(** A cell of the frame [pd.read_csv] returns, given by what the two
    pandas parsers the source applies make of it:
    [pd.to_numeric(errors="coerce")] and
    [pd.to_datetime(utc=True, errors="coerce").dt.date] (None is NaT). *)
Record cell : Type := mkCell {
  as_number : float64;
  as_date : option date_t
}.

Record CsvFrame : Type := mkCsvFrame {
  columns : list string;
  records : list (list cell)
}.

(** A blob of the object store: its path and what [fs.open] followed by
    [pd.read_csv] yields. *)
Record RawFile : Type := mkRawFile {
  abfs_path : string;
  parsed : result CsvFrame
}.

Definition normalize (c : string) : string := title (strip c).

Definition count_col (name : string) (cols : list string) : nat :=
  length (filter (String.eqb name) cols).

Fixpoint index_of (name : string) (cols : list string) : nat :=
  match cols with
  | [] => 0
  | c :: rest => if String.eqb name c then 0 else S (index_of name rest)
  end.

Definition expected_columns : list string :=
  ["Open"; "High"; "Low"; "Close"; "Volume"; "Date"]%string.

Definition numeric_columns : list string :=
  ["Open"; "High"; "Low"; "Close"; "Volume"]%string.

Fixpoint insert_by_date (b : RawBar) (sorted : list RawBar) : list RawBar :=
  match sorted with
  | [] => [b]
  | x :: rest =>
      if (bar_date b <? bar_date x)%Z then b :: sorted
      else x :: insert_by_date b rest
  end.

(** [sort_values("date")]; rows with equal dates keep their order here
    (pandas does not promise one). *)
Definition sort_by_date (df : list RawBar) : list RawBar :=
  fold_left (fun acc b => insert_by_date b acc) df [].

Definition read_raw_csv (f : RawFile) : result (list RawBar) :=
  df <- parsed f ;;
  let cols := map normalize (columns df) in
  (* df[["Open","High","Low","Close","Volume","Date"]] *)
  if negb (forallb (fun c => 0 <? count_col c cols) expected_columns)
  then Raise KeyError
  (* a column name held twice selects a frame, which the parsers refuse *)
  else if 1 <? count_col "Date" cols then Raise ValueError
  else if existsb (fun c => 1 <? count_col c cols) numeric_columns
  then Raise TypeError
  else
    let get name (rec : list cell) :=
      nth (index_of name cols) rec (mkCell NaN None) in
    let bars :=
      flat_map (fun rec =>
                  match as_date (get "Date"%string rec) with
                  | Some d =>                      (* dropna(subset=["date"]) *)
                      [ mkRawBar (as_number (get "Open"%string rec))
                                 (as_number (get "High"%string rec))
                                 (as_number (get "Low"%string rec))
                                 (as_number (get "Close"%string rec))
                                 (as_number (get "Volume"%string rec))
                                 d ]
                  | None => []
                  end)
               (records df) in
    Ok (sort_by_date bars).

(* ================================================================= *)
(** ** The database: staging and permanent tables *)

(** A record of [dbo.processed_stage] / [dbo.processed_prices]; a NULL
    column is [None]. *)
Record StageRow : Type := mkStageRow {
  s_symbol : string;
  s_date : date_t;
  s_open : option float64;
  s_high : option float64;
  s_low : option float64;
  s_close : option float64;
  s_volume : option Z;
  s_sma_5 : option float64;
  s_sma_10 : option float64;
  s_sma_20 : option float64;
  s_sma_50 : option float64;
  s_sma_200 : option float64;
  s_ema_12 : option float64;
  s_ema_26 : option float64;
  s_macd : option float64;
  s_macd_signal : option float64;
  s_macd_hist : option float64;
  s_bb_middle : option float64;
  s_bb_upper : option float64;
  s_bb_lower : option float64;
  s_returns : option float64;
  s_log_returns : option float64;
  s_volatility_20 : option float64;
  s_momentum_20 : option float64;
  s_volume_sma_20 : option float64;
  s_volume_ratio : option float64
}.

(** Tables are bags of rows; the staging table has no key. *)
Record Db : Type := mkDb {
  processed_stage : list StageRow;
  processed_prices : list StageRow
}.

Definition empty_db : Db := mkDb [] [].

(* ----------------------------------------------------------------- *)
(** *** load_stage *)

(** [float(x) if pd.notna(x) else None] *)
Definition nullable_float (x : float64) : option float64 :=
  if notna x then Some (py_float x) else None.

(** [int(x) if pd.notna(x) else None] *)
Definition nullable_int (x : float64) : result (option Z) :=
  if notna x then (n <- py_int x ;; Ok (Some n)) else Ok None.

Definition stage_tuple (symbol : string) (r : FeatureRow) : result StageRow :=
  vol <- nullable_int (Volume r) ;;
  Ok {| s_symbol := symbol;
        s_date := date r;
        s_open := nullable_float (Open r);
        s_high := nullable_float (High r);
        s_low := nullable_float (Low r);
        s_close := nullable_float (Close r);
        s_volume := vol;
        s_sma_5 := nullable_float (Sma_5 r);
        s_sma_10 := nullable_float (Sma_10 r);
        s_sma_20 := nullable_float (Sma_20 r);
        s_sma_50 := nullable_float (Sma_50 r);
        s_sma_200 := nullable_float (Sma_200 r);
        s_ema_12 := nullable_float (Ema_12 r);
        s_ema_26 := nullable_float (Ema_26 r);
        s_macd := nullable_float (Macd r);
        s_macd_signal := nullable_float (Macd_Signal r);
        s_macd_hist := nullable_float (Macd_Hist r);
        s_bb_middle := nullable_float (Bb_Middle r);
        s_bb_upper := nullable_float (Bb_Upper r);
        s_bb_lower := nullable_float (Bb_Lower r);
        s_returns := nullable_float (Returns r);
        s_log_returns := nullable_float (Log_Returns r);
        s_volatility_20 := nullable_float (Volatility_20 r);
        s_momentum_20 := nullable_float (Momentum_20 r);
        s_volume_sma_20 := nullable_float (Volume_Sma_20 r);
        s_volume_ratio := nullable_float (Volume_Ratio r) |}.

(** The rows are built first (and building may raise); one
    [executemany] then appends them to the staging table and commits. *)
Definition load_stage (cn : Db) (symbol : string) (dfp : list FeatureRow)
  : result Db :=
  rows <- mapM (stage_tuple symbol) dfp ;;
  Ok {| processed_stage := processed_stage cn ++ rows;
        processed_prices := processed_prices cn |}.

(* ----------------------------------------------------------------- *)
(** *** merge_stage *)

(** [ON (tgt.symbol = src.symbol AND tgt.[date] = src.[date])] *)
Definition on_key (a b : StageRow) : bool :=
  String.eqb (s_symbol a) (s_symbol b) && Z.eqb (s_date a) (s_date b).

(** [WHEN MATCHED THEN UPDATE SET ...]: every column but the key. *)
Definition update_set (tgt src : StageRow) : StageRow :=
  {| s_symbol := s_symbol tgt;
     s_date := s_date tgt;
     s_open := s_open src;
     s_high := s_high src;
     s_low := s_low src;
     s_close := s_close src;
     s_volume := s_volume src;
     s_sma_5 := s_sma_5 src;
     s_sma_10 := s_sma_10 src;
     s_sma_20 := s_sma_20 src;
     s_sma_50 := s_sma_50 src;
     s_sma_200 := s_sma_200 src;
     s_ema_12 := s_ema_12 src;
     s_ema_26 := s_ema_26 src;
     s_macd := s_macd src;
     s_macd_signal := s_macd_signal src;
     s_macd_hist := s_macd_hist src;
     s_bb_middle := s_bb_middle src;
     s_bb_upper := s_bb_upper src;
     s_bb_lower := s_bb_lower src;
     s_returns := s_returns src;
     s_log_returns := s_log_returns src;
     s_volatility_20 := s_volatility_20 src;
     s_momentum_20 := s_momentum_20 src;
     s_volume_sma_20 := s_volume_sma_20 src;
     s_volume_ratio := s_volume_ratio src |}.

(** Modelled from the spec: the DDL of the two tables is not in the
    repository; section 6 of the specification gives
    [processed_prices] the primary key (symbol, date) and the staging
    table none.  [has_dup_key] tells whether a batch of inserted rows
    breaks that key. *)
Fixpoint has_dup_key (rows : list StageRow) : bool :=
  match rows with
  | [] => false
  | r :: rest => existsb (on_key r) rest || has_dup_key rest
  end.

(** The MERGE statement joins source and target as they are when the
    statement starts.  It fails when one target row is matched by more
    than one source row, and its inserts fail on a primary-key
    collision; a failed statement changes nothing (no commit).
    Otherwise matched rows are updated, unmatched source rows inserted,
    and the TRUNCATE empties the staging table. *)
Definition merge_stage (cn : Db) : result Db :=
  let src := processed_stage cn in
  let tgt := processed_prices cn in
  if existsb (fun t => 1 <? length (filter (on_key t) src)) tgt
  then Raise MergeMultiMatch
  else
    let updated :=
      map (fun t => match find (on_key t) src with
                    | Some s => update_set t s
                    | None => t
                    end) tgt in
    let inserted := filter (fun s => negb (existsb (on_key s) tgt)) src in
    if has_dup_key inserted then Raise PrimaryKeyViolation
    else Ok {| processed_stage := []; processed_prices := updated ++ inserted |}.

(* ================================================================= *)
(** ** main *)

(** The driver's state is the connection, the row counter and, as a
    record of what it did, the calls it made on the connection.  Its
    prints, the [symbol] column it inserts into [proc] (which
    [load_stage] does not read) and [cn.close()] are left out. *)

(** The calls the driver makes on the connection, in order. *)
Inductive event : Type :=
| LoadStage (symbol : string) (rows : nat)
| MergeStage.

Record Run : Type := mkRun {
  cn : Db;
  processed_rows : nat;
  calls : list event
}.

(** How a run ends: [main] returns, or an exception leaves it (no
    handler anywhere in the driver) with the run as it then stands. *)
Inductive outcome : Type :=
| Completed (r : Run)
| Aborted (e : exn) (r : Run).

Definition do_merge (r : Run) (k : Run -> outcome) : outcome :=
  match merge_stage (cn r) with
  | Raise e => Aborted e r
  | Ok cn' => k (mkRun cn' (processed_rows r) (calls r ++ [MergeStage]))
  end.

(** The body of [for i, abfs_path in enumerate(paths, 1)], from file
    number [i] on. *)
Fixpoint main_loop (i : nat) (paths : list RawFile) (r : Run) : outcome :=
  match paths with
  | [] => Completed r
  | f :: rest =>
      let symbol := symbol_of (abfs_path f) in
      match read_raw_csv f with
      | Raise e => Aborted e r
      | Ok raw =>
          match raw with
          | [] => main_loop (S i) rest r                       (* continue *)
          | _ :: _ =>
              let proc := dropna_Close (compute_features raw) in
              match proc with
              | [] => main_loop (S i) rest r                   (* continue *)
              | _ :: _ =>
                  match load_stage (cn r) symbol proc with
                  | Raise e => Aborted e r
                  | Ok cn1 =>
                      let r1 := mkRun cn1 (processed_rows r + length proc)
                                      (calls r ++ [LoadStage symbol (length proc)]) in
                      if i mod 40 =? 0
                      then do_merge r1 (main_loop (S i) rest)
                      else main_loop (S i) rest r1
                  end
              end
          end
      end
  end.

Definition main (cn0 : Db) (paths : list RawFile) : outcome :=
  match main_loop 1 paths (mkRun cn0 0 []) with
  | Completed r => do_merge r Completed
  | Aborted e r => Aborted e r
  end.

(* ================================================================= *)
(** ** Vocabulary of the properties *)

Definition nan_bar : RawBar := mkRawBar NaN NaN NaN NaN NaN 0%Z.

Definition nan_row : FeatureRow :=
  mkFeatureRow NaN NaN NaN NaN NaN 0%Z NaN NaN NaN NaN NaN NaN NaN NaN NaN
               NaN NaN NaN NaN NaN NaN NaN NaN NaN NaN.

(** Row [t] of the feature engine's output. *)
Definition row_at (df : list RawBar) (t : nat) : FeatureRow :=
  nth t (compute_features df) nan_row.

Definition closes (df : list RawBar) : series := map bar_close df.
Definition volumes (df : list RawBar) : series := map bar_volume df.

(** The five moving-average columns by window length. *)
Definition sma_windows : list nat := [5; 10; 20; 50; 200].

Definition Sma_field (n : nat) (r : FeatureRow) : float64 :=
  if n =? 5 then Sma_5 r
  else if n =? 10 then Sma_10 r
  else if n =? 20 then Sma_20 r
  else if n =? 50 then Sma_50 r
  else Sma_200 r.

(** The reals at positions [t-n+1 .. t] of a series. *)
Definition trailing (n t : nat) (s : series) : list R :=
  map (fun i => fin_val (at_ s i)) (seq (S t - n) n).

(** Arithmetic mean of the samples at positions [t-n+1 .. t]. *)
Definition trailing_mean (n t : nat) (s : series) : R :=
  (Rsum (trailing n t s) / INR n)%R.

(** A column of the feature engine's output. *)
Definition column (f : FeatureRow -> float64) (df : list RawBar) : series :=
  map f (compute_features df).

(** An exponential moving average of [close] with smoothing factor
    [alpha], seeded by the first sample. *)
Definition ema_recurrence (alpha : R) (ema close : series) : Prop :=
  at_ ema 0 = at_ close 0 /\
  forall k, S k < length close ->
    at_ ema (S k) =
    Fin ((1 - alpha) * fin_val (at_ ema k) + alpha * fin_val (at_ close (S k))).

(** A bar with one price for open, high, low and close. *)
Definition bar (price vol : R) (d : Z) : RawBar :=
  mkRawBar (Fin price) (Fin price) (Fin price) (Fin price) (Fin vol) d.

Definition bars5 : list RawBar :=
  [bar 1 100 1; bar 2 100 2; bar 3 100 3; bar 4 100 4; bar 5 100 5].


(** Nineteen closes at 0 followed by one at 20. *)
Definition bars20 : list RawBar :=
  map (fun k => bar 0 100 (Z.of_nat k)) (seq 1 19) ++ [bar 20 100 20].

(** The float fields of a feature row, each with the staging column
    it is written to. *)
Definition float_fields
  : list ((FeatureRow -> float64) * (StageRow -> option float64)) :=
  [ (Open, s_open); (High, s_high); (Low, s_low); (Close, s_close);
    (Sma_5, s_sma_5); (Sma_10, s_sma_10); (Sma_20, s_sma_20);
    (Sma_50, s_sma_50); (Sma_200, s_sma_200);
    (Ema_12, s_ema_12); (Ema_26, s_ema_26); (Macd, s_macd);
    (Macd_Signal, s_macd_signal); (Macd_Hist, s_macd_hist);
    (Bb_Middle, s_bb_middle); (Bb_Upper, s_bb_upper); (Bb_Lower, s_bb_lower);
    (Returns, s_returns); (Log_Returns, s_log_returns);
    (Volatility_20, s_volatility_20); (Momentum_20, s_momentum_20);
    (Volume_Sma_20, s_volume_sma_20); (Volume_Ratio, s_volume_ratio) ].

(** The key of a table row. *)
Definition row_key (r : StageRow) : string * date_t := (s_symbol r, s_date r).

(** The rows one call of [load_stage] hands to the staging table. *)
Definition staged_as (symbol : string) (dfp : list FeatureRow)
                     (staged : list StageRow) : Prop :=
  Forall2 (fun r row => stage_tuple symbol r = Ok row) dfp staged.

(** A close of 0 followed by a close of 1. *)
Definition bars01 : list RawBar := [bar 0 100 1; bar 1 100 2].

(** A bar whose volume is 10.9. *)
Definition bars_frac : list RawBar :=
  [mkRawBar (Fin 1) (Fin 1) (Fin 1) (Fin 1) (Fin (109 / 10)) 1%Z].



(** [z] is [v] truncated toward zero. *)
Definition truncates (z : Z) (v : R) : Prop :=
  (0 <= v -> IZR z <= v < IZR z + 1)%R /\
  (v <= 0 -> IZR z - 1 < v <= IZR z)%R.

(** A table row with every feature column NULL. *)
Definition blank_row (symbol : string) (d : Z) : StageRow :=
  mkStageRow symbol d None None None None None None None None None None
             None None None None None None None None None None None None
             None None.

(** A row with a close and a volume and every other column NULL. *)
Definition priced_row (symbol : string) (d : Z) (c : R) (v : Z) : StageRow :=
  mkStageRow symbol d None None None (Some (Fin c)) (Some v) None None None
             None None None None None None None None None None None None
             None None None None.

(** Some expected column is absent from the normalized header. *)
Definition missing_column (df : CsvFrame) : Prop :=
  exists c, In c expected_columns /\ ~ In c (map normalize (columns df)).

(** What a file contributes to the staging table: its symbol and the
    number of rows it stages, or nothing when it is skipped. *)
Definition contributes (f : RawFile) : option (string * nat) :=
  match read_raw_csv f with
  | Ok raw =>
      match dropna_Close (compute_features raw) with
      | [] => None
      | proc => Some (symbol_of (abfs_path f), length proc)
      end
  | Raise _ => None
  end.

(** The calls of the loop by listing position: a file that contributes
    is staged, and a merge follows it when its position [i] (counting
    every listed file) is a multiple of 40. *)
Fixpoint chunk_calls (i : nat) (paths : list RawFile) : list event :=
  match paths with
  | [] => []
  | f :: rest =>
      match contributes f with
      | Some (symbol, n) =>
          LoadStage symbol n :: (if i mod 40 =? 0 then [MergeStage] else [])
      | None => []
      end ++ chunk_calls (S i) rest
  end.

(** The largest number of files staged between two consecutive merges
    (or before the first one): [run] counts the files staged since the
    last merge, [best] is the largest count seen. *)
Fixpoint staged_runs (run best : nat) (evs : list event) : nat :=
  match evs with
  | [] => Nat.max run best
  | LoadStage _ _ :: rest => staged_runs (S run) best rest
  | MergeStage :: rest => staged_runs 0 (Nat.max run best) rest
  end.

Definition max_staged_between_merges (evs : list event) : nat :=
  staged_runs 0 0 evs.

(** The number of files staged before the first merge. *)
Fixpoint staged_before_first_merge (evs : list event) : nat :=
  match evs with
  | LoadStage _ _ :: rest => S (staged_before_first_merge rest)
  | _ => 0
  end.

Definition num (x : R) : cell := mkCell (Fin x) None.
Definition day (d : Z) : cell := mkCell NaN (Some d).

(** A well-formed file of one bar; its header needs the normalization. *)
Definition good_file (name : string) : RawFile :=
  mkRawFile ("raw/asxStocks/" ++ name ++ "_raw.csv")
    (Ok (mkCsvFrame [" open"; "HIGH"; "low "; "Close"; "volume"; "date"]%string
                    [[num 1; num 2; num 1; num 2; num 100; day 1]])).

(** A file without a Date column. *)
Definition bad_file : RawFile :=
  mkRawFile "raw/asxStocks/bad.ax_raw.csv"
    (Ok (mkCsvFrame ["Open"; "High"; "Low"; "Close"; "Volume"]%string
                    [[num 1; num 2; num 1; num 2; num 100]])).

(** A well-formed file with a header and no record. *)
Definition empty_file : RawFile :=
  mkRawFile "raw/asxStocks/none.ax_raw.csv"
    (Ok (mkCsvFrame ["Open"; "High"; "Low"; "Close"; "Volume"; "Date"]%string [])).

(** Names a, aa, aaa, ... *)
Definition name_of (k : nat) : string :=
  string_of_list_ascii (repeat "a"%char k).

(** A listing of 41 files: an empty one, then 40 well-formed ones. *)
Definition files41 : list RawFile :=
  empty_file :: map (fun k => good_file (name_of k)) (seq 1 40).

(** A listing of 80 files whose 40th file is empty. *)
Definition files80 : list RawFile :=
  map (fun k => good_file (name_of k)) (seq 1 39)
  ++ empty_file :: map (fun k => good_file (name_of k)) (seq 41 40).

(* ================================================================= *)
(** ** get_conn (Data/sqlDB/dbConnection.py) *)

(** The process environment after [load_dotenv]: [os.getenv]. *)
Definition environ := string -> option string.

(** What [get_conn] does: it hands a connection string to
    [pyodbc.connect], or [_need] raises a RuntimeError naming a
    variable. *)
Inductive conn_attempt : Type :=
| Connect (conn_str : string)
| RuntimeError (name : string).

(** [_need(name)]: the value, unless it is unset or empty
    ([if not val]). *)
Definition _need (env : environ) (name : string) : string + string :=
  match env name with
  | Some EmptyString => inr name
  | Some val => inl val
  | None => inr name
  end.

Definition get_conn (env : environ) : conn_attempt :=
  match _need env "SQL_SERVER" with
  | inr n => RuntimeError n
  | inl server =>
  match _need env "SQL_DB" with
  | inr n => RuntimeError n
  | inl db =>
  match _need env "SQL_UID" with
  | inr n => RuntimeError n
  | inl uid =>
  match _need env "SQL_PWD" with
  | inr n => RuntimeError n
  | inl pwd =>
      Connect ("DRIVER={ODBC Driver 18 for SQL Server};"
               ++ "SERVER=" ++ server ++ ";DATABASE=" ++ db
               ++ ";UID=" ++ uid ++ ";PWD=" ++ pwd ++ ";"
               ++ "Encrypt=yes;TrustServerCertificate=no;Login Timeout=60;")
  end end end end.

(* ================================================================= *)
(** ** Vocabulary of the further properties *)

(** The variables [get_conn] needs, in the order it asks for them. *)
Definition required_settings : list string :=
  ["SQL_SERVER"; "SQL_DB"; "SQL_UID"; "SQL_PWD"]%string.

(** A variable that is set to a non-empty value. *)
Definition is_set (env : environ) (name : string) : bool :=
  match env name with
  | Some EmptyString => false
  | Some _ => true
  | None => false
  end.

(** Ascending dates. *)
Definition dates_ascending (df : list RawBar) : Prop :=
  Sorted (fun a b => (bar_date a <= bar_date b)%Z) df.

(** The date [read_raw_csv] reads off a record, given the normalized
    header. *)
Definition date_of_record (cols : list string) (rec : list cell)
  : option date_t :=
  as_date (nth (index_of "Date" cols) rec (mkCell NaN None)).

(** The dates of the records whose Date cell parses, in file order. *)
Definition parsed_dates (df : CsvFrame) : list date_t :=
  flat_map (fun rec =>
              match date_of_record (map normalize (columns df)) rec with
              | Some d => [d]
              | None => []
              end)
           (records df).

(** The run an outcome carries. *)
Definition run_of (o : outcome) : Run :=
  match o with
  | Completed r => r
  | Aborted _ r => r
  end.

(** The keys of the permanent table. *)
Definition price_keys (db : Db) : list (string * date_t) :=
  map row_key (processed_prices db).

Fixpoint no_lower (s : string) : bool :=
  match s with
  | EmptyString => true
  | String c r => negb (is_lower c) && no_lower r
  end.

(** Thirty bars at one price and one volume. *)
Definition bars_steady : list RawBar :=
  map (fun k => bar 7 50 (Z.of_nat k)) (seq 1 30).

(** A frame whose records are out of order and one of whose dates does
    not parse. *)
Definition shuffled_file : RawFile :=
  mkRawFile "raw/asxStocks/cba.ax_raw.csv"
    (Ok (mkCsvFrame ["Date"; "Open"; "High"; "Low"; "Close"; "Volume"]%string
           [[day 3; num 3; num 3; num 3; num 3; num 30];
            [mkCell NaN None; num 9; num 9; num 9; num 9; num 90];
            [day 1; num 1; num 1; num 1; num 1; num 10];
            [day 2; num 2; num 2; num 2; num 2; num 20]])).

(** Six bars; the close of the third is missing. *)
Definition bars_hole : list RawBar :=
  [bar 1 100 1; bar 2 100 2;
   mkRawBar (Fin 3) (Fin 3) (Fin 3) NaN (Fin 100) 3%Z;
   bar 4 100 4; bar 5 100 5; bar 6 100 6].

(** A row whose volume is infinite. *)
Definition row_inf_volume : FeatureRow :=
  mkFeatureRow (Fin 1) (Fin 1) (Fin 1) (Fin 1) PInf 1%Z NaN NaN NaN NaN NaN
               NaN NaN NaN NaN NaN NaN NaN NaN NaN NaN NaN NaN NaN NaN.

(** A database with two staged rows, one of which updates a row of the
    permanent table. *)
Definition db_sample : Db :=
  mkDb [priced_row "ABC" 1 5 10; blank_row "ABC" 2]
       [blank_row "ABC" 1; blank_row "XYZ" 7].

Definition db_sample_merged : Db :=
  mkDb [] [priced_row "ABC" 1 5 10; blank_row "XYZ" 7; blank_row "ABC" 2].

(** The keys of the staging table. *)
Definition stage_keys (db : Db) : list (string * date_t) :=
  map row_key (processed_stage db).

(** The keys a listed file stands for: its symbol with the date of each
    of its bars that has a non-null close. *)
Definition file_keys (f : RawFile) : list (string * date_t) :=
  match read_raw_csv f with
  | Ok raw =>
      map (fun b => (symbol_of (abfs_path f), bar_date b))
          (filter (fun b => notna (bar_close b)) raw)
  | Raise _ => []
  end.

(** An environment with the server set, the database name empty and
    the credentials unset. *)
Definition env_sample : environ :=
  fun name =>
    if String.eqb name "SQL_SERVER" then Some "tcp:db.example.net"%string
    else if String.eqb name "SQL_DB" then Some EmptyString
    else None.

(** An environment with the four settings. *)
Definition env_full : environ :=
  fun name =>
    if String.eqb name "SQL_SERVER" then Some "srv"%string
    else if String.eqb name "SQL_DB" then Some "prices"%string
    else if String.eqb name "SQL_UID" then Some "etl"%string
    else if String.eqb name "SQL_PWD" then Some "secret"%string
    else None.

(* ================================================================= *)
(** ** The rolling columns in binary64

    [float64] above carries a finite value as an exact real.  The
    module [F64] evaluates the rolling columns of [compute_features] on
    IEEE binary64 numbers instead, with the kernels pandas runs for
    [rolling(n).mean()] and [rolling(n).std()]: [roll_mean], [roll_var]
    and [zsqrt], over the bounds of a fixed trailing window of [n]
    samples with [min_periods = n].  Both kernels keep a running state
    that is updated by compensated (Kahan) additions and removals as
    the window slides.  The properties use it to show where rounding
    and overflow part the code from exact arithmetic. *)

Module F64.

(** [<float64_t>n] for a count [n]. *)
Definition of_count (n : Z) : float := PrimFloat.of_uint63 (Uint63.of_Z n).

Definition isnan (x : float) : bool := negb (PrimFloat.eqb x x).

(** [signbit]. *)
Definition signbit (x : float) : bool := get_sign x.

Definition at_ (s : list float) (t : nat) : float := nth t s nan.

(** [BaseWindow._prep_values]: infinities become NaN. *)
Definition prep_values (s : list float) : list float :=
  map (fun x => if is_infinity x then nan else x) s.

(** The state of [roll_mean]. *)
Record mean_state : Type := mkMeanState {
  m_nobs : Z;
  m_sum_x : float;
  m_neg_ct : Z;
  m_compensation_add : float;
  m_compensation_remove : float;
  m_num_consecutive_same_value : Z;
  m_prev_value : float
}.

Definition add_mean (val : float) (st : mean_state) : mean_state :=
  if PrimFloat.eqb val val then
    let y := (val - m_compensation_add st)%float in
    let t := (m_sum_x st + y)%float in
    {| m_nobs := m_nobs st + 1;
       m_sum_x := t;
       m_neg_ct := if signbit val then m_neg_ct st + 1 else m_neg_ct st;
       m_compensation_add := (t - m_sum_x st - y)%float;
       m_compensation_remove := m_compensation_remove st;
       m_num_consecutive_same_value :=
         if PrimFloat.eqb val (m_prev_value st)
         then m_num_consecutive_same_value st + 1 else 1;
       m_prev_value := val |}
  else st.

Definition remove_mean (val : float) (st : mean_state) : mean_state :=
  if PrimFloat.eqb val val then
    let y := (- val - m_compensation_remove st)%float in
    let t := (m_sum_x st + y)%float in
    {| m_nobs := m_nobs st - 1;
       m_sum_x := t;
       m_neg_ct := if signbit val then m_neg_ct st - 1 else m_neg_ct st;
       m_compensation_add := m_compensation_add st;
       m_compensation_remove := (t - m_sum_x st - y)%float;
       m_num_consecutive_same_value := m_num_consecutive_same_value st;
       m_prev_value := m_prev_value st |}
  else st.

Definition calc_mean (minp : Z) (st : mean_state) : float :=
  if ((minp <=? m_nobs st) && (0 <? m_nobs st))%Z then
    let result := (m_sum_x st / of_count (m_nobs st))%float in
    if (m_nobs st <=? m_num_consecutive_same_value st)%Z then m_prev_value st
    else if (m_neg_ct st =? 0)%Z && PrimFloat.ltb result 0 then 0%float
    else if (m_neg_ct st =? m_nobs st)%Z && PrimFloat.ltb 0 result then 0%float
    else result
  else nan.

(** Positions [i, i+1, ...] of [roll_mean]'s loop for a fixed window of
    [n] samples: [start[i] = max(0, i+1-n)], [end[i] = i+1]. *)
Fixpoint roll_mean_from (n : nat) (values : list float) (minp : Z)
                        (i : nat) (st : mean_state) (todo : nat) : list float :=
  match todo with
  | O => []
  | S todo' =>
      let s := S i - n in
      let st' :=
        if (i =? 0) || (i <=? s) then
          (* setup: the window is summed from scratch *)
          fold_left (fun acc j => add_mean (at_ values j) acc)
                    (seq s (S i - s))
                    (mkMeanState 0 0 0 0 0 0 (at_ values s))
        else
          (* deletes [start[i-1], s), then adds [end[i-1], e) *)
          let removed :=
            fold_left (fun acc j => remove_mean (at_ values j) acc)
                      (seq (i - n) (s - (i - n))) st in
          add_mean (at_ values i) removed in
      calc_mean minp st' :: roll_mean_from n values minp (S i) st' todo'
  end.

Definition roll_mean (n : nat) (values : list float) : list float :=
  roll_mean_from n values (Z.of_nat n) 0
                 (mkMeanState 0 0 0 0 0 0 nan) (length values).

(** The state of [roll_var]. *)
Record var_state : Type := mkVarState {
  v_nobs : float;
  v_mean_x : float;
  v_ssqdm_x : float;
  v_compensation_add : float;
  v_compensation_remove : float;
  v_num_consecutive_same_value : Z;
  v_prev_value : float
}.

Definition add_var (val : float) (st : var_state) : var_state :=
  if PrimFloat.eqb val val then
    let nobs := (v_nobs st + 1)%float in
    let prev_mean := (v_mean_x st - v_compensation_add st)%float in
    let y := (val - v_compensation_add st)%float in
    let t := (y - v_mean_x st)%float in
    let mean_x :=
      if PrimFloat.eqb nobs 0 then 0%float
      else (v_mean_x st + t / nobs)%float in
    {| v_nobs := nobs;
       v_mean_x := mean_x;
       v_ssqdm_x := (v_ssqdm_x st + (val - prev_mean) * (val - mean_x))%float;
       v_compensation_add := (t + v_mean_x st - y)%float;
       v_compensation_remove := v_compensation_remove st;
       v_num_consecutive_same_value :=
         if PrimFloat.eqb val (v_prev_value st)
         then v_num_consecutive_same_value st + 1 else 1;
       v_prev_value := val |}
  else st.

Definition remove_var (val : float) (st : var_state) : var_state :=
  if PrimFloat.eqb val val then
    let nobs := (v_nobs st - 1)%float in
    if PrimFloat.eqb nobs 0 then
      {| v_nobs := nobs;
         v_mean_x := 0;
         v_ssqdm_x := 0;
         v_compensation_add := v_compensation_add st;
         v_compensation_remove := v_compensation_remove st;
         v_num_consecutive_same_value := v_num_consecutive_same_value st;
         v_prev_value := v_prev_value st |}
    else
      let prev_mean := (v_mean_x st - v_compensation_remove st)%float in
      let y := (val - v_compensation_remove st)%float in
      let t := (y - v_mean_x st)%float in
      let mean_x := (v_mean_x st - t / nobs)%float in
      {| v_nobs := nobs;
         v_mean_x := mean_x;
         v_ssqdm_x := (v_ssqdm_x st - (val - prev_mean) * (val - mean_x))%float;
         v_compensation_add := v_compensation_add st;
         v_compensation_remove := (t + v_mean_x st - y)%float;
         v_num_consecutive_same_value := v_num_consecutive_same_value st;
         v_prev_value := v_prev_value st |}
  else st.

Definition calc_var (minp : Z) (ddof : Z) (st : var_state) : float :=
  if PrimFloat.leb (of_count minp) (v_nobs st)
     && PrimFloat.ltb (of_count ddof) (v_nobs st) then
    if PrimFloat.eqb (v_nobs st) 1
       || PrimFloat.leb (v_nobs st) (of_count (v_num_consecutive_same_value st))
    then 0%float
    else (v_ssqdm_x st / (v_nobs st - of_count ddof))%float
  else nan.

Fixpoint roll_var_from (n : nat) (values : list float) (minp ddof : Z)
                       (i : nat) (st : var_state) (todo : nat) : list float :=
  match todo with
  | O => []
  | S todo' =>
      let s := S i - n in
      let st' :=
        if (i =? 0) || (i <=? s) then
          fold_left (fun acc j => add_var (at_ values j) acc)
                    (seq s (S i - s))
                    (mkVarState 0 0 0 0 0 0 (at_ values s))
        else
          let removed :=
            fold_left (fun acc j => remove_var (at_ values j) acc)
                      (seq (i - n) (s - (i - n))) st in
          add_var (at_ values i) removed in
      calc_var minp ddof st' :: roll_var_from n values minp ddof (S i) st' todo'
  end.

Definition roll_var (n : nat) (ddof : Z) (values : list float) : list float :=
  roll_var_from n values (Z.max (Z.of_nat n) 1) ddof 0
                (mkVarState 0 0 0 0 0 0 nan) (length values).

(** [zsqrt]: the square root, 0 where the argument is negative. *)
Definition zsqrt (x : float) : float :=
  if PrimFloat.ltb x 0 then 0%float else PrimFloat.sqrt x.

(** [close.rolling(n).mean()] and [close.rolling(n).std()]. *)
Definition rolling_mean (n : nat) (s : list float) : list float :=
  roll_mean n (prep_values s).

Definition rolling_std (n : nat) (s : list float) : list float :=
  map zsqrt (roll_var n 1 (prep_values s)).

Definition Sma (n : nat) (close : list float) : list float := rolling_mean n close.
Definition mid (close : list float) : list float := Sma 20 close.
Definition std20 (close : list float) : list float := rolling_std 20 close.
Definition Bb_Middle (close : list float) : list float := mid close.
Definition Bb_Upper (close : list float) : list float :=
  map2 PrimFloat.add (mid close) (map (PrimFloat.mul 2) (std20 close)).
Definition Bb_Lower (close : list float) : list float :=
  map2 PrimFloat.sub (mid close) (map (PrimFloat.mul 2) (std20 close)).

End F64.



(** The closes 1, 2, ..., 20. *)
Definition closes_1_20 : list float :=
  map (fun k => F64.of_count (Z.of_nat k)) (seq 1 20).



(** Three bars; the close of the second is missing. *)
Definition bars_gap : list RawBar :=
  [bar 1 100 1;
   mkRawBar (Fin 2) (Fin 2) (Fin 2) NaN (Fin 100) 2%Z;
   bar 2 100 3].

(** The value of a variable of the environment (empty when unset). *)
Definition setting (env : environ) (name : string) : string :=
  match env name with
  | Some val => val
  | None => EmptyString
  end.

(* ================================================================= *)
(** * Properties *)

(** ** Signs and lists *)

Lemma Rsign_pos (r : R) : (0 < r)%R -> Rsign r = Gt.
Proof.
  intros H. unfold Rsign.
  destruct (total_order_T r 0) as [[Hlt | Heq] | Hgt]; try reflexivity; lra.
Qed.

Lemma Rsign_neg (r : R) : (r < 0)%R -> Rsign r = Lt.
Proof.
  intros H. unfold Rsign.
  destruct (total_order_T r 0) as [[Hlt | Heq] | Hgt]; try reflexivity; lra.
Qed.

Lemma Rsign_zero : Rsign 0 = Eq.
Proof.
  unfold Rsign.
  destruct (total_order_T 0 0) as [[Hlt | Heq] | Hgt]; try reflexivity; lra.
Qed.

Lemma nth_map_seq {A} (f : nat -> A) (len t : nat) (d : A) :
  t < len -> nth t (map f (seq 0 len)) d = f t.
Proof.
  intros H.
  rewrite (nth_indep _ d (f 0)) by (rewrite length_map, length_seq; exact H).
  rewrite map_nth, seq_nth by exact H. reflexivity.
Qed.

Lemma firstn_skipn_seq {A} (d : A) (s : list A) (n k : nat) :
  k + n <= length s ->
  firstn n (skipn k s) = map (fun i => nth i s d) (seq k n).
Proof.
  revert s k. induction n as [| n IH]; intros s k H.
  - reflexivity.
  - destruct (skipn k s) as [| x rest] eqn:E.
    + assert (L : length (skipn k s) = 0) by (rewrite E; reflexivity).
      rewrite length_skipn in L. lia.
    + simpl. f_equal.
      * assert (N : nth 0 (skipn k s) d = x) by (rewrite E; reflexivity).
        rewrite nth_skipn in N. rewrite Nat.add_0_r in N. symmetry. exact N.
      * rewrite <- (IH s (S k)) by lia.
        assert (S1 : skipn (S k) s = skipn 1 (skipn k s)).
        { rewrite skipn_skipn. f_equal. }
        rewrite S1, E. reflexivity.
Qed.

(** ** Rolling windows *)

Lemma length_rolling n agg s : length (rolling n agg s) = length s.
Proof. unfold rolling. rewrite length_map, length_seq. reflexivity. Qed.

Lemma at_rolling n agg s t :
  t < length s ->
  at_ (rolling n agg s) t =
  if n <=? S t then
    match all_fin (window n t (prep_values s)) with
    | Some rs => agg rs
    | None => NaN
    end
  else NaN.
Proof.
  intros H. unfold at_, rolling. rewrite nth_map_seq by exact H. reflexivity.
Qed.

Lemma at_rolling_warmup n agg s t :
  S t < n -> at_ (rolling n agg s) t = NaN.
Proof.
  intros H. destruct (Nat.lt_ge_cases t (length s)) as [Hin | Hout].
  - rewrite at_rolling by exact Hin.
    destruct (Nat.leb_spec n (S t)); [lia | reflexivity].
  - unfold at_. apply nth_overflow. rewrite length_rolling. exact Hout.
Qed.

Lemma all_fin_map_fin (s : series) :
  forallb is_fin s = true -> all_fin s = Some (map fin_val s).
Proof.
  induction s as [| x s IH]; intros H; [reflexivity |].
  simpl in H. apply andb_true_iff in H. destruct H as [Hx Hs].
  destruct x; try discriminate. simpl. rewrite (IH Hs). reflexivity.
Qed.

Lemma all_fin_length (s : series) rs : all_fin s = Some rs -> length rs = length s.
Proof.
  revert rs. induction s as [| x s IH]; intros rs H.
  - inversion H. reflexivity.
  - destruct x; simpl in H; try discriminate.
    destruct (all_fin s) as [rs' |]; [| discriminate].
    inversion H. simpl. f_equal. apply IH. reflexivity.
Qed.

Lemma prep_values_fin (s : series) :
  forallb is_fin s = true -> prep_values s = s.
Proof.
  induction s as [| x s IH]; intros H; [reflexivity |].
  simpl in H. apply andb_true_iff in H. destruct H as [Hx Hs].
  destruct x; try discriminate. simpl. f_equal. apply IH. exact Hs.
Qed.

Lemma length_window n t (s : series) :
  n <= S t -> t < length s -> length (window n t s) = n.
Proof.
  intros H1 H2. unfold window. rewrite length_firstn, length_skipn. lia.
Qed.

Lemma window_seq n t (s : series) :
  n <= S t -> t < length s ->
  window n t s = map (at_ s) (seq (S t - n) n).
Proof.
  intros H1 H2. unfold window. apply firstn_skipn_seq. lia.
Qed.

Lemma In_window n t (s : series) x : In x (window n t s) -> In x s.
Proof.
  unfold window. intros H.
  rewrite <- (firstn_skipn (S t - n) s). apply in_or_app. right.
  rewrite <- (firstn_skipn n (skipn (S t - n) s)). apply in_or_app. left.
  exact H.
Qed.

Lemma forallb_window n t (s : series) :
  forallb is_fin s = true -> forallb is_fin (window n t s) = true.
Proof.
  intros H. rewrite forallb_forall in *. intros x Hx. apply H.
  revert Hx. apply In_window.
Qed.

Lemma all_fin_window n t (s : series) :
  forallb is_fin s = true -> n <= S t -> t < length s ->
  all_fin (window n t (prep_values s)) = Some (trailing n t s).
Proof.
  intros Hfin Hn Ht. rewrite (prep_values_fin _ Hfin).
  rewrite all_fin_map_fin by (apply forallb_window; exact Hfin).
  rewrite window_seq by assumption. rewrite map_map. reflexivity.
Qed.

Lemma length_trailing n t s : length (trailing n t s) = n.
Proof. unfold trailing. rewrite length_map, length_seq. reflexivity. Qed.

Lemma at_rolling_mean_fin n t (s : series) :
  forallb is_fin s = true -> n <= S t -> t < length s ->
  at_ (rolling_mean n s) t = Fin (trailing_mean n t s).
Proof.
  intros Hfin Hn Ht. unfold rolling_mean. rewrite at_rolling by exact Ht.
  destruct (Nat.leb_spec n (S t)); [| lia].
  rewrite all_fin_window by assumption.
  unfold Rmean, trailing_mean. rewrite length_trailing. reflexivity.
Qed.

(** ** Rows of compute_features *)

Lemma length_compute_features df : length (compute_features df) = length df.
Proof. unfold compute_features. rewrite length_map, length_seq. reflexivity. Qed.

Lemma row_at_eq df t :
  t < length df ->
  row_at df t =
  let close := closes df in
  let vol := volumes df in
  let b := nth t df nan_bar in
  mkFeatureRow (bar_open b) (bar_high b) (bar_low b) (bar_close b)
    (bar_volume b) (bar_date b)
    (at_ (Col.Sma 5 close) t) (at_ (Col.Sma 10 close) t)
    (at_ (Col.Sma 20 close) t) (at_ (Col.Sma 50 close) t)
    (at_ (Col.Sma 200 close) t)
    (at_ (Col.Ema_12 close) t) (at_ (Col.Ema_26 close) t)
    (at_ (Col.Macd close) t) (at_ (Col.Macd_Signal close) t)
    (at_ (Col.Macd_Hist close) t)
    (at_ (Col.Bb_Middle close) t) (at_ (Col.Bb_Upper close) t)
    (at_ (Col.Bb_Lower close) t)
    (at_ (Col.Returns close) t) (at_ (Col.Log_Returns close) t)
    (at_ (Col.Volatility_20 close) t) (at_ (Col.Momentum_20 close) t)
    (at_ (Col.Volume_Sma_20 vol) t) (at_ (Col.Volume_Ratio vol) t).
Proof.
  intros H. unfold row_at, compute_features.
  rewrite nth_map_seq by exact H. reflexivity.
Qed.

Lemma Sma_field_at df n t :
  In n sma_windows -> t < length df ->
  Sma_field n (row_at df t) = at_ (Col.Sma n (closes df)) t.
Proof.
  intros Hn Ht. rewrite (row_at_eq df t Ht).
  simpl in Hn.
  destruct Hn as [<- | [<- | [<- | [<- | [<- | []]]]]]; reflexivity.
Qed.

(** ** Simple moving averages *)








(** ** Exponential moving averages and MACD *)

Lemma length_ewm_loop alpha w ow s :
  length (ewm_loop alpha w ow s) = length s.
Proof.
  revert w ow. induction s as [| cur rest IH]; intros w ow; [reflexivity |].
  simpl. destruct w, cur; simpl; rewrite IH; reflexivity.
Qed.

Lemma length_ewm_mean span s : length (ewm_mean span s) = length s.
Proof.
  unfold ewm_mean, prep_values. destruct s as [| x rest]; [reflexivity |].
  simpl. rewrite length_ewm_loop, length_map. reflexivity.
Qed.

Lemma at_map2 (f : float64 -> float64 -> float64) (xs ys : series) t :
  t < length xs -> t < length ys ->
  at_ (map2 f xs ys) t = f (at_ xs t) (at_ ys t).
Proof.
  revert ys t. induction xs as [| x xs IH]; intros ys t Hx Hy.
  - simpl in Hx. lia.
  - destruct ys as [| y ys]; [simpl in Hy; lia |].
    destruct t as [| t]; [reflexivity |].
    simpl in Hx, Hy. apply (IH ys t); lia.
Qed.

(** On finite samples one step of the kernel is the textbook update. *)
Lemma ewm_loop_step alpha w c rest :
  exists w', w' = ((1 - alpha) * w + alpha * c)%R /\
    ewm_loop alpha (Fin w) 1 (Fin c :: rest) =
    Fin w' :: ewm_loop alpha (Fin w') 1 rest.
Proof.
  simpl. destruct (Req_dec_T w c) as [Heq | Hne].
  - exists w. split; [subst c; ring | reflexivity].
  - exists ((1 * (1 - alpha) * w + alpha * c) / (1 * (1 - alpha) + alpha))%R.
    split; [field; lra | reflexivity].
Qed.

Lemma ewm_loop_recurrence alpha (cs : series) :
  forallb is_fin cs = true ->
  forall w k, k < length cs ->
    at_ (Fin w :: ewm_loop alpha (Fin w) 1 cs) (S k) =
    Fin ((1 - alpha) * fin_val (at_ (Fin w :: ewm_loop alpha (Fin w) 1 cs) k)
         + alpha * fin_val (at_ cs k)).
Proof.
  induction cs as [| c cs IH]; intros Hfin w k Hk; [simpl in Hk; lia |].
  simpl in Hfin. apply andb_true_iff in Hfin. destruct Hfin as [Hc Hcs].
  destruct c as [| | | c]; try discriminate.
  destruct (ewm_loop_step alpha w c cs) as [w' [Hw' Hstep]].
  rewrite Hstep. destruct k as [| k].
  - unfold at_. simpl. rewrite Hw'. reflexivity.
  - simpl in Hk. apply (IH Hcs w' k). lia.
Qed.

Lemma ewm_mean_recurrence span (close : series) :
  forallb is_fin close = true ->
  ema_recurrence (ewm_alpha span) (ewm_mean span close) close.
Proof.
  intros Hfin. unfold ema_recurrence, ewm_mean.
  rewrite (prep_values_fin _ Hfin).
  destruct close as [| c cs]; [split; [reflexivity | simpl; lia] |].
  split; [reflexivity |].
  intros k Hk. simpl in Hfin. apply andb_true_iff in Hfin.
  destruct Hfin as [Hc Hcs]. destruct c as [| | | c]; try discriminate.
  simpl in Hk. rewrite ewm_loop_recurrence by (assumption || lia).
  reflexivity.
Qed.

Lemma ewm_alpha_span (span : R) :
  (0 < span)%R -> ewm_alpha span = (2 / (span + 1))%R.
Proof. intros H. unfold ewm_alpha. field. lra. Qed.

Lemma column_at (f : FeatureRow -> float64) df t :
  f nan_row = NaN -> at_ (column f df) t = f (row_at df t).
Proof.
  intros Hd. unfold at_, column, row_at. rewrite <- Hd at 1. apply map_nth.
Qed.

Lemma column_eq (f : FeatureRow -> float64) (g : series -> series) df :
  f nan_row = NaN ->
  length (g (closes df)) = length df ->
  (forall t, t < length df -> f (row_at df t) = at_ (g (closes df)) t) ->
  column f df = g (closes df).
Proof.
  intros Hd Hlen Hrow. apply (nth_ext _ _ NaN NaN).
  - unfold column. rewrite length_map, length_compute_features. symmetry. exact Hlen.
  - intros t Ht. unfold column in Ht.
    rewrite length_map, length_compute_features in Ht.
    change (at_ (column f df) t = at_ (g (closes df)) t).
    rewrite column_at by exact Hd. apply Hrow. exact Ht.
Qed.

(** C8 (as the code has it).  For every input series and every output
    row, Macd is the difference Ema_12 - Ema_26 of the two columns of
    the same row; on a close series of finite numbers (no null, no
    infinity) each of the two averages starts at the first close and
    moves by the smoothing factor 2/(span+1). *)
Theorem C8_macd_is_ema_difference (df : list RawBar) :
  (forall t, t < length df ->
     Macd (row_at df t) = fsub (Ema_12 (row_at df t)) (Ema_26 (row_at df t)))
  /\
  (forallb is_fin (closes df) = true ->
     ema_recurrence (2 / (12 + 1)) (column Ema_12 df) (closes df) /\
     ema_recurrence (2 / (26 + 1)) (column Ema_26 df) (closes df)).
Proof.
  assert (Hlen : forall span, length (ewm_mean span (closes df)) = length df).
  { intros span. rewrite length_ewm_mean. unfold closes. apply length_map. }
  split.
  - intros t Ht. rewrite (row_at_eq df t Ht). simpl.
    unfold Col.Macd. apply at_map2.
    + unfold Col.Ema_12. rewrite Hlen. exact Ht.
    + unfold Col.Ema_26. rewrite Hlen. exact Ht.
  - intros Hfin. split.
    + rewrite (column_eq Ema_12 Col.Ema_12 df eq_refl (Hlen 12%R)).
      * rewrite <- (ewm_alpha_span 12) by lra.
        apply ewm_mean_recurrence. exact Hfin.
      * intros t Ht. rewrite (row_at_eq df t Ht). reflexivity.
    + rewrite (column_eq Ema_26 Col.Ema_26 df eq_refl (Hlen 26%R)).
      * rewrite <- (ewm_alpha_span 26) by lra.
        apply ewm_mean_recurrence. exact Hfin.
      * intros t Ht. rewrite (row_at_eq df t Ht). reflexivity.
Qed.

Lemma C8_macd_is_ema_difference_witness :
  Macd (row_at bars5 4) = fsub (Ema_12 (row_at bars5 4)) (Ema_26 (row_at bars5 4))
  /\ ema_recurrence (2 / (12 + 1)) (column Ema_12 bars5) (closes bars5)
  /\ ema_recurrence (2 / (26 + 1)) (column Ema_26 bars5) (closes bars5).
Proof.
  split.
  - apply (proj1 (C8_macd_is_ema_difference bars5) 4%nat). simpl; lia.
  - apply (proj2 (C8_macd_is_ema_difference bars5)). reflexivity.
Defined.

Lemma ema_12_bars_gap :
  Ema_12 (row_at bars_gap 1) = Fin 1 /\
  Ema_12 (row_at bars_gap 2) = Fin (173 / 147).
Proof.
  rewrite !row_at_eq by (simpl; lia). simpl.
  unfold Col.Ema_12, ewm_mean, at_. simpl.
  destruct (Req_dec_T 1 2) as [E | _]; [lra |].
  split; [reflexivity |]. simpl. f_equal. unfold ewm_alpha. field.
Qed.

(** C8 (as stated) fails: after a null close the kernel renormalises
    its weights.  On the closes 1, null, 2 the row after the gap has
    Ema_12 = 173/147, not (1 - 2/13) * 1 + 2/13 * 2 = 15/13 as the
    smoothing factor 2/(span+1) would give from the previous Ema_12 = 1
    and the close 2. *)
Lemma C8_null_close_counterexample :
  Close (row_at bars_gap 2) = Fin 2 /\
  Ema_12 (row_at bars_gap 1) = Fin 1 /\
  Ema_12 (row_at bars_gap 2) <>
    Fin ((1 - 2 / (12 + 1)) * fin_val (Ema_12 (row_at bars_gap 1))
         + 2 / (12 + 1) * fin_val (Close (row_at bars_gap 2))) /\
  ~ ema_recurrence (2 / (12 + 1)) (column Ema_12 bars_gap) (closes bars_gap).
Proof.
  destruct ema_12_bars_gap as [E1 E2].
  assert (Hc : Close (row_at bars_gap 2) = Fin 2)
    by (rewrite row_at_eq by (simpl; lia); reflexivity).
  assert (Hne : Ema_12 (row_at bars_gap 2) <>
                Fin ((1 - 2 / (12 + 1)) * fin_val (Ema_12 (row_at bars_gap 1))
                     + 2 / (12 + 1) * fin_val (Close (row_at bars_gap 2)))).
  { rewrite E1, E2, Hc. simpl. intros H. injection H as H. lra. }
  repeat split; try assumption.
  intros [_ Hrec]. apply Hne.
  specialize (Hrec 1 ltac:(simpl; lia)).
  rewrite !column_at in Hrec by reflexivity.
  rewrite Hrec. rewrite Hc. reflexivity.
Qed.

(** ** Bollinger bands *)

Lemma window_map (f : float64 -> float64) n t (s : series) :
  window n t (map f s) = map f (window n t s).
Proof. unfold window. rewrite skipn_map, firstn_map. reflexivity. Qed.

Lemma all_fin_window_local n t (s : series) :
  forallb is_fin (window n t s) = true -> n <= S t -> t < length s ->
  all_fin (window n t (prep_values s)) = Some (trailing n t s).
Proof.
  intros Hfin Hn Ht. unfold prep_values. rewrite window_map.
  fold (prep_values (window n t s)). rewrite (prep_values_fin _ Hfin).
  rewrite (all_fin_map_fin _ Hfin).
  rewrite window_seq by assumption. rewrite map_map. reflexivity.
Qed.

(** Where the window is short or holds a null both rolling columns are
    null; elsewhere both are computed from the same window. *)
Lemma rolling_pair n agg1 agg2 (s : series) t :
  t < length s ->
  (at_ (rolling n agg1 s) t = NaN /\ at_ (rolling n agg2 s) t = NaN) \/
  (exists rs, n <= S t /\ length rs = n /\
     all_fin (window n t (prep_values s)) = Some rs /\
     at_ (rolling n agg1 s) t = agg1 rs /\
     at_ (rolling n agg2 s) t = agg2 rs).
Proof.
  intros Ht. rewrite !at_rolling by exact Ht.
  destruct (Nat.leb_spec n (S t)) as [Hn | Hn]; [| left; split; reflexivity].
  destruct (all_fin (window n t (prep_values s))) as [rs |] eqn:E;
    [| left; split; reflexivity].
  right. exists rs. repeat split; try reflexivity; try assumption.
  rewrite (all_fin_length _ _ E). apply length_window; [exact Hn |].
  unfold prep_values. rewrite length_map. exact Ht.
Qed.

Lemma at_map_nan (f : float64 -> float64) (s : series) t :
  f NaN = NaN -> at_ (map f s) t = f (at_ s t).
Proof. intros H. unfold at_. rewrite <- H at 1. apply map_nth. Qed.

Lemma bollinger_rows (close : series) t :
  t < length close ->
  at_ (Col.Bb_Middle close) t = at_ (Col.Sma 20 close) t /\
  ((at_ (Col.Bb_Middle close) t = NaN /\
    at_ (Col.Bb_Upper close) t = NaN /\
    at_ (Col.Bb_Lower close) t = NaN) \/
   (exists rs, 20 <= S t /\
      all_fin (window 20 t (prep_values close)) = Some rs /\
      at_ (Col.Bb_Middle close) t = Fin (Rmean rs) /\
      at_ (Col.Bb_Upper close) t =
        Fin (Rmean rs + 2 * sqrt (ssqdm rs / 19)) /\
      at_ (Col.Bb_Lower close) t =
        Fin (Rmean rs + - (2 * sqrt (ssqdm rs / 19))))).
Proof.
  intros Ht. split; [reflexivity |].
  assert (Lm : length (Col.mid close) = length close)
    by apply length_rolling.
  assert (Ls : length (map (fmul (Fin 2)) (Col.std20 close)) = length close)
    by (rewrite length_map; apply length_rolling).
  unfold Col.Bb_Middle, Col.Bb_Upper, Col.Bb_Lower.
  rewrite !at_map2 by lia. rewrite !at_map_nan by reflexivity.
  unfold Col.mid, Col.std20, Col.Sma, rolling_mean, rolling_std.
  destruct (rolling_pair 20 (fun rs => Fin (Rmean rs))
              (fun rs => if 1 <? length rs then Fin (sqrt (Rvar 1 rs)) else NaN)
              close t Ht)
    as [[Hm Hs] | [rs [Hn [Hlen [Hw [Hm Hs]]]]]].
  - left. rewrite Hm, Hs. repeat split; reflexivity.
  - right. exists rs. rewrite Hm, Hs. rewrite Hlen.
    change (1 <? 20) with true. cbv beta iota.
    unfold Rvar. rewrite Hlen.
    replace (INR (20 - 1)) with 19%R by (simpl; lra).
    repeat split; try assumption; reflexivity.
Qed.

Lemma bollinger_row_at df t :
  t < length df ->
  Sma_20 (row_at df t) = at_ (Col.Sma 20 (closes df)) t /\
  Bb_Middle (row_at df t) = at_ (Col.Bb_Middle (closes df)) t /\
  Bb_Upper (row_at df t) = at_ (Col.Bb_Upper (closes df)) t /\
  Bb_Lower (row_at df t) = at_ (Col.Bb_Lower (closes df)) t.
Proof.
  intros Ht. rewrite (row_at_eq df t Ht). repeat split; reflexivity.
Qed.

Lemma bollinger_sample_std (df : list RawBar) (t : nat) :
  19 <= t -> t < length df ->
  forallb is_fin (window 20 t (closes df)) = true ->
  Sma_20 (row_at df t) = Fin (Rmean (trailing 20 t (closes df))) /\
  Bb_Upper (row_at df t) =
    Fin (Rmean (trailing 20 t (closes df))
         + 2 * sqrt (ssqdm (trailing 20 t (closes df)) / 19)) /\
  Bb_Lower (row_at df t) =
    Fin (Rmean (trailing 20 t (closes df))
         + - (2 * sqrt (ssqdm (trailing 20 t (closes df)) / 19))).
Proof.
  intros H19 Ht Hfin.
  destruct (bollinger_row_at df t Ht) as [Hs [Hm [Hu Hl]]].
  assert (Hc : t < length (closes df)) by (unfold closes; rewrite length_map; exact Ht).
  destruct (bollinger_rows (closes df) t Hc) as [Hmid Hcases].
  assert (Hw : all_fin (window 20 t (prep_values (closes df)))
               = Some (trailing 20 t (closes df)))
    by (apply all_fin_window_local; [exact Hfin | lia | exact Hc]).
  rewrite Hs, Hu, Hl, <- Hmid.
  destruct Hcases as [[Hn _] | [rs [_ [Hrs [Hmv [Huv Hlv]]]]]].
  - exfalso. unfold Col.Bb_Middle, Col.mid, Col.Sma, rolling_mean in Hn.
    rewrite at_rolling in Hn by exact Hc. rewrite Hw in Hn.
    destruct (Nat.leb_spec 20 (S t)); [discriminate | lia].
  - rewrite Hw in Hrs. inversion Hrs; subst rs.
    rewrite Hmv, Huv, Hlv. repeat split; reflexivity.
Qed.






(** C9 (as the code has it).  For every input series and every output
    row, the two outer bands are built from the middle band and one
    and the same offset: Bb_Upper is Bb_Middle + 2*std20 and Bb_Lower
    is Bb_Middle - 2*std20, where std20 is the rolling 20-sample
    deviation of close at the row.  The statement is in the code's own
    additions and subtractions, so rounding does not touch it. *)
Theorem C9_bollinger_common_offset (df : list RawBar) (t : nat) :
  t < length df ->
  Bb_Upper (row_at df t) =
    fadd (Bb_Middle (row_at df t))
         (fmul (Fin 2) (at_ (Col.std20 (closes df)) t)) /\
  Bb_Lower (row_at df t) =
    fsub (Bb_Middle (row_at df t))
         (fmul (Fin 2) (at_ (Col.std20 (closes df)) t)).
Proof.
  intros Ht.
  destruct (bollinger_row_at df t Ht) as [_ [Em [Eu El]]].
  assert (Hc : t < length (closes df))
    by (unfold closes; rewrite length_map; exact Ht).
  assert (Lm : length (Col.mid (closes df)) = length (closes df))
    by apply length_rolling.
  assert (Ls : length (map (fmul (Fin 2)) (Col.std20 (closes df)))
               = length (closes df))
    by (rewrite length_map; apply length_rolling).
  rewrite Em, Eu, El.
  unfold Col.Bb_Upper, Col.Bb_Lower, Col.Bb_Middle.
  rewrite !at_map2 by lia. rewrite !at_map_nan by reflexivity.
  split; reflexivity.
Qed.

Lemma C9_bollinger_common_offset_witness :
  Bb_Upper (row_at bars20 19) =
    fadd (Bb_Middle (row_at bars20 19))
         (fmul (Fin 2) (at_ (Col.std20 (closes bars20)) 19)) /\
  Bb_Lower (row_at bars20 19) =
    fsub (Bb_Middle (row_at bars20 19))
         (fmul (Fin 2) (at_ (Col.std20 (closes bars20)) 19)).
Proof.
  apply (C9_bollinger_common_offset bars20 19). simpl; lia.
Defined.

(** C9 (as stated) fails in binary64: on the closes 1, 2, ..., 20 the
    three Bollinger values of row 19 are numbers (the middle band is
    10.5 and the deviation the double nearest to the square root of
    35), and the rounded difference Bb_Upper - Bb_Middle is smaller
    than the rounded difference Bb_Middle - Bb_Lower. *)
Lemma C9_rounding_counterexample :
  F64.isnan (F64.at_ (F64.Bb_Upper closes_1_20) 19) = false /\
  F64.isnan (F64.at_ (F64.Bb_Middle closes_1_20) 19) = false /\
  F64.isnan (F64.at_ (F64.Bb_Lower closes_1_20) 19) = false /\
  PrimFloat.eqb
    (F64.at_ (F64.Bb_Upper closes_1_20) 19
     - F64.at_ (F64.Bb_Middle closes_1_20) 19)
    (F64.at_ (F64.Bb_Middle closes_1_20) 19
     - F64.at_ (F64.Bb_Lower closes_1_20) 19) = false /\
  PrimFloat.ltb
    (F64.at_ (F64.Bb_Upper closes_1_20) 19
     - F64.at_ (F64.Bb_Middle closes_1_20) 19)
    (F64.at_ (F64.Bb_Middle closes_1_20) 19
     - F64.at_ (F64.Bb_Lower closes_1_20) 19) = true.
Proof. vm_compute. repeat split. Qed.

(** ** The stage loader *)

Lemma mapM_Forall2 {A B} (f : A -> result B) xs ys :
  mapM f xs = Ok ys <-> Forall2 (fun x y => f x = Ok y) xs ys.
Proof.
  revert ys. induction xs as [| x xs IH]; intros ys; split; intros H.
  - inversion H. constructor.
  - inversion H. reflexivity.
  - simpl in H. destruct (f x) as [y |] eqn:Ey; [| discriminate].
    simpl in H. destruct (mapM f xs) as [ys' |] eqn:Em; [| discriminate].
    inversion H; subst. constructor; [exact Ey | apply IH; reflexivity].
  - inversion H as [| x' y xs' ys' Hy Hrest]; subst.
    simpl. rewrite Hy. simpl.
    apply IH in Hrest. rewrite Hrest. reflexivity.
Qed.

Lemma load_stage_inv cn symbol dfp cn' :
  load_stage cn symbol dfp = Ok cn' ->
  exists staged,
    staged_as symbol dfp staged /\
    processed_stage cn' = processed_stage cn ++ staged /\
    processed_prices cn' = processed_prices cn.
Proof.
  unfold load_stage. intros H.
  destruct (mapM (stage_tuple symbol) dfp) as [rows |] eqn:E; [| discriminate].
  inversion H; subst. exists rows. repeat split.
  apply mapM_Forall2. exact E.
Qed.

Lemma stage_tuple_inv symbol r row :
  stage_tuple symbol r = Ok row ->
  s_symbol row = symbol /\ s_date row = date r /\
  nullable_int (Volume r) = Ok (s_volume row) /\
  forall f g, In (f, g) float_fields -> g row = nullable_float (f r).
Proof.
  unfold stage_tuple. intros H.
  destruct (nullable_int (Volume r)) as [vol |]; [| discriminate].
  inversion H; subst; clear H. repeat split.
  intros f g Hin. simpl in Hin.
  repeat (destruct Hin as [Hin | Hin];
          [inversion Hin; subst; reflexivity |]).
  contradiction.
Qed.

Lemma nullable_int_spec x vol :
  nullable_int x = Ok vol ->
  match x with
  | NaN => vol = None
  | Fin v => vol = Some (Ztrunc v)
  | _ => False
  end.
Proof.
  destruct x; unfold nullable_int; simpl; intros H; inversion H; reflexivity.
Qed.

Lemma Ztrunc_bounds v :
  (0 <= v -> IZR (Ztrunc v) <= v < IZR (Ztrunc v) + 1)%R /\
  (v <= 0 -> IZR (Ztrunc v) - 1 < v <= IZR (Ztrunc v))%R.
Proof.
  unfold Ztrunc, Rsign.
  destruct (total_order_T v 0) as [[Hlt | Heq] | Hgt]; split; intros H;
    try lra; try apply Zfloor_bound; try apply Zceil_bound.
  subst v. rewrite (ZfloorZ 0). simpl. lra.
Qed.


Lemma at_map_bar (f : RawBar -> float64) df t :
  f nan_bar = NaN -> at_ (map f df) t = f (nth t df nan_bar).
Proof. intros H. unfold at_. rewrite <- H at 1. apply map_nth. Qed.

Lemma volume_ratio_row df t :
  t < length df ->
  Volume_Ratio (row_at df t) =
  fdiv (Volume (row_at df t)) (Volume_Sma_20 (row_at df t)).
Proof.
  intros Ht. rewrite (row_at_eq df t Ht). simpl.
  unfold Col.Volume_Ratio. rewrite at_map2.
  - unfold volumes. rewrite at_map_bar by reflexivity. reflexivity.
  - unfold volumes. rewrite length_map. exact Ht.
  - unfold Col.Volume_Sma_20, rolling_mean. rewrite length_rolling.
    unfold volumes. rewrite length_map. exact Ht.
Qed.

Lemma stage_tuple_cast symbol r row :
  stage_tuple symbol r = Ok row ->
  (forall f g, In (f, g) float_fields ->
     g row = match f r with NaN => None | x => Some x end) /\
  s_volume row = match Volume r with Fin v => Some (Ztrunc v) | _ => None end.
Proof.
  intros H. destruct (stage_tuple_inv symbol r row H) as [_ [_ [Hv Hf]]].
  split.
  - intros f g Hin. rewrite (Hf f g Hin). destruct (f r); reflexivity.
  - apply nullable_int_spec in Hv. destruct (Volume r); try contradiction; exact Hv.
Qed.











(** ** Volume as an integer *)

Lemma mapM_total {A B} (f : A -> result B) xs :
  Forall (fun x => exists y, f x = Ok y) xs -> exists ys, mapM f xs = Ok ys.
Proof.
  induction 1 as [| x xs [y Hy] _ [ys Hys]].
  - exists []. reflexivity.
  - exists (y :: ys). simpl. rewrite Hy. simpl. rewrite Hys. reflexivity.
Qed.

Lemma stage_tuple_total symbol r :
  is_fin (Volume r) = true \/ Volume r = NaN ->
  exists row, stage_tuple symbol r = Ok row.
Proof.
  intros H. unfold stage_tuple.
  destruct (Volume r) as [| | | v]; destruct H as [H | H]; try discriminate;
    simpl; eexists; reflexivity.
Qed.

Lemma stage_tuple_volume symbol r row :
  stage_tuple symbol r = Ok row ->
  (forall v, Volume r = Fin v ->
     exists z, s_volume row = Some z /\ truncates z v) /\
  (s_volume row = None <-> Volume r = NaN).
Proof.
  intros H. destruct (stage_tuple_cast symbol r row H) as [_ Hv].
  destruct (stage_tuple_inv symbol r row H) as [_ [_ [Hi _]]].
  apply nullable_int_spec in Hi. split.
  - intros v Ev. rewrite Ev in Hv. exists (Ztrunc v).
    split; [exact Hv | apply Ztrunc_bounds].
  - destruct (Volume r); try contradiction; rewrite Hv; split; intros E;
      (reflexivity || discriminate).
Qed.

(** C10.  A batch whose Volume fields are numbers or NaN is accepted;
    a Volume that is a number is staged as that number truncated toward
    zero, and the staged volume is null only for a NaN Volume. *)
Theorem C10_volume_truncated (cn : Db) (symbol : string) (dfp : list FeatureRow) :
  Forall (fun r => is_fin (Volume r) = true \/ Volume r = NaN) dfp ->
  exists cn' staged,
    load_stage cn symbol dfp = Ok cn' /\
    processed_stage cn' = processed_stage cn ++ staged /\
    Forall2 (fun r row =>
               (forall v, Volume r = Fin v ->
                  exists z, s_volume row = Some z /\ truncates z v) /\
               (s_volume row = None <-> Volume r = NaN))
            dfp staged.
Proof.
  intros Hvol.
  destruct (mapM_total (stage_tuple symbol) dfp) as [rows Hrows].
  { revert Hvol. apply Forall_impl. intros r. apply stage_tuple_total. }
  exists (mkDb (processed_stage cn ++ rows) (processed_prices cn)), rows.
  split; [unfold load_stage; rewrite Hrows; reflexivity |].
  split; [reflexivity |].
  apply mapM_Forall2 in Hrows. revert Hrows. apply Forall2_impl.
  apply stage_tuple_volume.
Qed.

Lemma truncates_10_9 z : truncates z (109 / 10) -> z = 10%Z.
Proof.
  intros [Hpos _]. assert (B : (0 <= 109 / 10)%R) by lra.
  specialize (Hpos B). rewrite <- (Zfloor_eq z (109 / 10) Hpos).
  apply Zfloor_eq. simpl. lra.
Qed.

Lemma C10_volume_truncated_witness :
  exists cn',
    load_stage empty_db "ABC" (compute_features bars_frac) = Ok cn' /\
    map s_volume (processed_stage cn') = [Some 10%Z].
Proof.
  destruct (C10_volume_truncated empty_db "ABC" (compute_features bars_frac))
    as [cn' [staged [Hload [Hs Hall]]]].
  - repeat constructor.
  - exists cn'. split; [exact Hload |].
    rewrite Hs. simpl.
    inversion Hall as [| r row rs rows [Hv _] Hrest]; subst.
    inversion Hrest; subst.
    destruct (Hv (109 / 10)%R eq_refl) as [z [Hz Ht]].
    simpl. rewrite Hz, (truncates_10_9 z Ht). reflexivity.
Defined.

(** ** Merge *)

Lemma on_key_true a b : on_key a b = true <-> row_key a = row_key b.
Proof.
  unfold on_key, row_key. rewrite andb_true_iff, String.eqb_eq, Z.eqb_eq.
  split.
  - intros [Hs Hd]. rewrite Hs, Hd. reflexivity.
  - intros H. inversion H. split; reflexivity.
Qed.

Lemma has_dup_key_NoDup rows :
  NoDup (map row_key rows) -> has_dup_key rows = false.
Proof.
  induction rows as [| r rest IH]; intros H; [reflexivity |].
  simpl in *. inversion H as [| k ks Hnotin Hrest]; subst.
  rewrite (IH Hrest), orb_false_r.
  destruct (existsb (on_key r) rest) eqn:E; [| reflexivity].
  exfalso. apply Hnotin. apply existsb_exists in E.
  destruct E as [x [Hin Hk]]. apply on_key_true in Hk. rewrite Hk.
  apply in_map. exact Hin.
Qed.

Lemma filter_all {A} (p : A -> bool) xs :
  (forall x, p x = true) -> filter p xs = xs.
Proof.
  intros H. induction xs as [| x xs IH]; [reflexivity |].
  simpl. rewrite H, IH. reflexivity.
Qed.

(** Merging into an empty permanent table inserts the staged rows as
    they are, provided their keys are distinct. *)
Lemma merge_stage_into_empty staged :
  NoDup (map row_key staged) ->
  merge_stage (mkDb staged []) = Ok (mkDb [] staged).
Proof.
  intros H. unfold merge_stage. simpl.
  rewrite filter_all by reflexivity.
  rewrite (has_dup_key_NoDup _ H). reflexivity.
Qed.

Lemma staged_as_keys symbol dfp staged :
  staged_as symbol dfp staged ->
  map row_key staged = map (fun r => (symbol, date r)) dfp.
Proof.
  induction 1 as [| r row rs rows Hr _ IH]; [reflexivity |].
  simpl. rewrite IH. f_equal.
  destruct (stage_tuple_inv symbol r row Hr) as [Hs [Hd _]].
  unfold row_key. rewrite Hs, Hd. reflexivity.
Qed.

(** C5.  Loading a series with pairwise-distinct (symbol, date) keys
    into an empty staging table and merging into an empty permanent
    table leaves exactly the staged rows in the permanent table: one
    row per key, each column as staged. *)
Theorem C5_load_merge_roundtrip (symbol : string) (dfp : list FeatureRow)
                                (cn1 : Db) :
  NoDup (map (fun r => (symbol, date r)) dfp) ->
  load_stage empty_db symbol dfp = Ok cn1 ->
  exists cn2,
    merge_stage cn1 = Ok cn2 /\
    processed_stage cn2 = [] /\
    processed_prices cn2 = processed_stage cn1 /\
    staged_as symbol dfp (processed_prices cn2) /\
    map row_key (processed_prices cn2) = map (fun r => (symbol, date r)) dfp /\
    NoDup (map row_key (processed_prices cn2)).
Proof.
  intros Hkeys Hload.
  destruct (load_stage_inv _ _ _ _ Hload) as [staged [Hst [Hs Hp]]].
  simpl in Hs, Hp. destruct cn1 as [stage1 prices1]. simpl in *. subst.
  pose proof (staged_as_keys symbol dfp staged Hst) as Hk.
  exists (mkDb [] staged). simpl.
  split; [apply merge_stage_into_empty; rewrite Hk; exact Hkeys |].
  repeat split; try assumption. rewrite Hk. exact Hkeys.
Qed.

Lemma dates_compute_features df :
  map date (compute_features df) = map bar_date df.
Proof.
  apply (nth_ext _ _ 0%Z 0%Z).
  - rewrite !length_map, length_compute_features. reflexivity.
  - intros t Ht. rewrite length_map, length_compute_features in Ht.
    change 0%Z with (date nan_row) at 1. rewrite map_nth.
    fold (row_at df t). rewrite (row_at_eq df t Ht). simpl.
    change 0%Z with (bar_date nan_bar). rewrite map_nth. reflexivity.
Qed.

Lemma C5_load_merge_roundtrip_witness :
  exists cn1 cn2,
    load_stage empty_db "ABC" (compute_features bars5) = Ok cn1 /\
    merge_stage cn1 = Ok cn2 /\
    processed_prices cn2 = processed_stage cn1 /\
    map row_key (processed_prices cn2) =
      [("ABC"%string, 1%Z); ("ABC"%string, 2%Z); ("ABC"%string, 3%Z);
       ("ABC"%string, 4%Z); ("ABC"%string, 5%Z)].
Proof.
  assert (E : exists cn1,
             load_stage empty_db "ABC" (compute_features bars5) = Ok cn1)
    by (eexists; reflexivity).
  destruct E as [cn1 E]. exists cn1.
  assert (Hd : map (fun r => ("ABC"%string, date r)) (compute_features bars5)
               = [("ABC"%string, 1%Z); ("ABC"%string, 2%Z); ("ABC"%string, 3%Z);
                  ("ABC"%string, 4%Z); ("ABC"%string, 5%Z)]).
  { rewrite <- (map_map date (fun d => ("ABC"%string, d))).
    rewrite dates_compute_features. reflexivity. }
  destruct (C5_load_merge_roundtrip "ABC" (compute_features bars5) cn1)
    as [cn2 [Hm [_ [Hp [_ [Hk _]]]]]].
  - rewrite Hd. repeat (constructor; [simpl; intuition congruence |]).
    constructor.
  - exact E.
  - exists cn2. rewrite <- Hd. repeat split; assumption.
Defined.

Lemma existsb_const_false {A} (xs : list A) :
  existsb (fun _ => false) xs = false.
Proof. induction xs as [| x xs IH]; [reflexivity | exact IH]. Qed.

(** C6.  A successful merge leaves the staging table empty, and a
    second merge run right after it succeeds and changes neither
    table. *)
Theorem C6_merge_idempotent (cn cn1 : Db) :
  merge_stage cn = Ok cn1 ->
  processed_stage cn1 = [] /\
  merge_stage cn1 = Ok cn1 /\
  (forall cn2, merge_stage cn1 = Ok cn2 ->
     processed_prices cn2 = processed_prices cn1 /\ processed_stage cn2 = []).
Proof.
  intros H.
  assert (Hs : processed_stage cn1 = []).
  { unfold merge_stage in H.
    destruct (existsb _ (processed_prices cn)); [discriminate |].
    destruct (has_dup_key _); [discriminate |].
    inversion H. reflexivity. }
  assert (H2 : merge_stage cn1 = Ok cn1).
  { destruct cn1 as [stage1 prices1]. simpl in Hs. subst stage1.
    unfold merge_stage. simpl.
    rewrite existsb_const_false, map_id, app_nil_r. reflexivity. }
  split; [exact Hs |]. split; [exact H2 |].
  intros cn2 H3. rewrite H2 in H3. inversion H3; subst.
  split; [reflexivity | exact Hs].
Qed.

Lemma C6_merge_idempotent_witness :
  merge_stage (mkDb [priced_row "ABC" 1 5 10; blank_row "ABC" 2]
                    [blank_row "ABC" 1])
  = Ok (mkDb [] [priced_row "ABC" 1 5 10; blank_row "ABC" 2])
  /\ merge_stage (mkDb [] [priced_row "ABC" 1 5 10; blank_row "ABC" 2])
     = Ok (mkDb [] [priced_row "ABC" 1 5 10; blank_row "ABC" 2]).
Proof.
  assert (H : merge_stage (mkDb [priced_row "ABC" 1 5 10; blank_row "ABC" 2]
                                [blank_row "ABC" 1])
              = Ok (mkDb [] [priced_row "ABC" 1 5 10; blank_row "ABC" 2]))
    by reflexivity.
  split; [exact H |].
  exact (proj1 (proj2 (C6_merge_idempotent _ _ H))).
Defined.

(** ** The driver *)

Example symbol_of_path :
  symbol_of "raw/asxStocks/bhp.ax_raw.csv" = "BHP.AX"%string.
Proof. reflexivity. Qed.

Example normalize_header :
  map normalize [" open"; "HIGH"; "low "; "Close"; "volume"; "date"]%string
  = expected_columns.
Proof. reflexivity. Qed.

Example read_good_file :
  read_raw_csv (good_file "bhp.ax")
  = Ok [mkRawBar (Fin 1) (Fin 2) (Fin 1) (Fin 2) (Fin 100) 1%Z].
Proof. reflexivity. Qed.

Example read_bad_file : read_raw_csv bad_file = Raise KeyError.
Proof. reflexivity. Qed.

Lemma main_loop_app i xs ys r :
  main_loop i (xs ++ ys) r =
  match main_loop i xs r with
  | Completed r' => main_loop (i + length xs) ys r'
  | Aborted e r' => Aborted e r'
  end.
Proof.
  revert i r. induction xs as [| f xs IH]; intros i r.
  - simpl. rewrite Nat.add_0_r. reflexivity.
  - cbn [main_loop app length].
    replace (i + S (length xs)) with (S i + length xs) by lia.
    destruct (read_raw_csv f) as [raw |]; [| reflexivity].
    destruct raw as [| b raw]; [apply IH |].
    destruct (dropna_Close (compute_features (b :: raw))) as [| p proc];
      [apply IH |].
    destruct (load_stage (cn r) (symbol_of (abfs_path f)) (p :: proc));
      [| reflexivity].
    destruct (i mod 40 =? 0); [| apply IH].
    unfold do_merge. destruct (merge_stage _); [apply IH | reflexivity].
Qed.

Lemma count_col_absent c cols : ~ In c cols -> count_col c cols = 0.
Proof.
  unfold count_col. induction cols as [| x cols IH]; intros H; [reflexivity |].
  simpl. destruct (String.eqb_spec c x) as [E | E].
  - exfalso. apply H. left. symmetry. exact E.
  - apply IH. intros Hin. apply H. right. exact Hin.
Qed.

Lemma read_raw_csv_missing f df :
  parsed f = Ok df -> missing_column df -> read_raw_csv f = Raise KeyError.
Proof.
  intros Hp [c [Hexp Habs]]. unfold read_raw_csv. rewrite Hp. cbn [bind].
  assert (E : forallb (fun c => 0 <? count_col c (map normalize (columns df)))
                      expected_columns = false).
  { apply not_true_is_false. intros Hall. rewrite forallb_forall in Hall.
    specialize (Hall c Hexp). rewrite (count_col_absent _ _ Habs) in Hall.
    discriminate. }
  rewrite E. reflexivity.
Qed.

(** A failed read ends the run where the loop stands. *)
Lemma main_read_failure cn0 before f after e :
  read_raw_csv f = Raise e ->
  main cn0 (before ++ f :: after) =
  match main_loop 1 before (mkRun cn0 0 []) with
  | Completed r => Aborted e r
  | Aborted e' r => Aborted e' r
  end.
Proof.
  intros Hf. unfold main. rewrite main_loop_app.
  destruct (main_loop 1 before (mkRun cn0 0 [])) as [r | e' r]; [| reflexivity].
  simpl. rewrite Hf. reflexivity.
Qed.

(** C1 (as the code has it).  When reading a raw file fails because an
    expected column is missing after header normalization, the KeyError
    leaves the driver: the run ends there, with the connection as the
    files listed before left it; no later file is read or staged and
    the final merge is not made. *)
Theorem C1_missing_columns_abort (cn0 : Db) (before after : list RawFile)
                                 (f : RawFile) (df : CsvFrame) :
  parsed f = Ok df ->
  missing_column df ->
  main cn0 (before ++ f :: after) =
  match main_loop 1 before (mkRun cn0 0 []) with
  | Completed r => Aborted KeyError r
  | Aborted e r => Aborted e r
  end.
Proof.
  intros Hp Hm. apply main_read_failure.
  apply (read_raw_csv_missing f df Hp Hm).
Qed.

Lemma bad_file_missing :
  missing_column (mkCsvFrame ["Open"; "High"; "Low"; "Close"; "Volume"]%string
                             [[num 1; num 2; num 1; num 2; num 100]]).
Proof.
  exists "Date"%string. split.
  - simpl. tauto.
  - simpl. intuition discriminate.
Qed.

Lemma C1_missing_columns_abort_witness :
  main empty_db ([] ++ bad_file :: [good_file "bhp.ax"])
  = Aborted KeyError (mkRun empty_db 0 []).
Proof.
  exact (C1_missing_columns_abort empty_db [] [good_file "bhp.ax"] bad_file
           _ eq_refl bad_file_missing).
Defined.

Lemma main_good_file :
  match main empty_db [good_file "bhp.ax"] with
  | Completed r =>
      calls r = [LoadStage "BHP.AX" 1; MergeStage] /\
      map row_key (processed_prices (cn r)) = [("BHP.AX"%string, 1%Z)]
  | Aborted _ _ => False
  end.
Proof. vm_compute. split; reflexivity. Qed.

(** C1 (as stated) fails: a listing of a file without a Date column
    followed by a well-formed file ends in a KeyError with nothing
    staged or merged, although the well-formed file alone is staged and
    merged. *)
Lemma C1_skip_and_continue_counterexample :
  main empty_db [bad_file; good_file "bhp.ax"]
    = Aborted KeyError (mkRun empty_db 0 [])
  /\ exists r,
       main empty_db [good_file "bhp.ax"] = Completed r /\
       calls r = [LoadStage "BHP.AX" 1; MergeStage] /\
       map row_key (processed_prices (cn r)) = [("BHP.AX"%string, 1%Z)].
Proof.
  split; [reflexivity |].
  pose proof main_good_file as H.
  destruct (main empty_db [good_file "bhp.ax"]) as [r | e r]; [| contradiction].
  exists r. split; [reflexivity | exact H].
Qed.

(** ** Chunked merging *)

Lemma contributes_load f raw p proc :
  read_raw_csv f = Ok raw ->
  dropna_Close (compute_features raw) = p :: proc ->
  contributes f = Some (symbol_of (abfs_path f), length (p :: proc)).
Proof. intros Hr Hp. unfold contributes. rewrite Hr, Hp. reflexivity. Qed.

Lemma contributes_skip f raw :
  read_raw_csv f = Ok raw ->
  dropna_Close (compute_features raw) = [] ->
  contributes f = None.
Proof. intros Hr Hp. unfold contributes. rewrite Hr, Hp. reflexivity. Qed.

Lemma main_loop_calls i paths r r' :
  main_loop i paths r = Completed r' ->
  calls r' = calls r ++ chunk_calls i paths.
Proof.
  revert i r. induction paths as [| f rest IH]; intros i r H.
  - simpl in H. inversion H. simpl. rewrite app_nil_r. reflexivity.
  - cbn [main_loop] in H. cbn [chunk_calls].
    destruct (read_raw_csv f) as [raw |] eqn:Er; [| discriminate].
    destruct raw as [| b raw].
    { rewrite (contributes_skip f [] Er eq_refl). apply (IH _ _ H). }
    destruct (dropna_Close (compute_features (b :: raw))) as [| p proc] eqn:Ep.
    { rewrite (contributes_skip f _ Er Ep). apply (IH _ _ H). }
    rewrite (contributes_load f _ p proc Er Ep).
    destruct (load_stage (cn r) (symbol_of (abfs_path f)) (p :: proc))
      as [cn1 |]; [| discriminate].
    destruct (i mod 40 =? 0).
    + unfold do_merge in H. cbn [cn processed_rows calls] in H.
      destruct (merge_stage cn1) as [cn2 |]; [| discriminate].
      rewrite (IH _ _ H). cbn [calls]. rewrite <- !app_assoc. reflexivity.
    + rewrite (IH _ _ H). cbn [calls]. rewrite <- !app_assoc. reflexivity.
Qed.

Lemma main_calls cn0 paths r :
  main cn0 paths = Completed r ->
  calls r = chunk_calls 1 paths ++ [MergeStage].
Proof.
  unfold main. intros H.
  destruct (main_loop 1 paths (mkRun cn0 0 [])) as [r1 | e r1] eqn:E;
    [| discriminate].
  apply main_loop_calls in E. simpl in E.
  unfold do_merge in H. destruct (merge_stage (cn r1)); [| discriminate].
  inversion H. cbn [calls]. rewrite E. reflexivity.
Qed.

Lemma mod40_succ j : S j mod 40 = 0 \/ S j mod 40 = S (j mod 40).
Proof.
  pose proof (Nat.div_mod_eq j 40) as Hj.
  pose proof (Nat.mod_upper_bound j 40 ltac:(lia)) as Hb.
  destruct (Nat.eq_dec (j mod 40) 39) as [E | E].
  - left. symmetry. apply (Nat.mod_unique (S j) 40 (S (j / 40))); lia.
  - right. symmetry. apply (Nat.mod_unique (S j) 40 (j / 40)); lia.
Qed.

Lemma staged_runs_chunk paths :
  forall j run best,
    run <= j mod 40 -> best <= 40 ->
    (forall k f, nth_error paths k = Some f -> (S j + k) mod 40 = 0 ->
                 contributes f <> None) ->
    staged_runs run best (chunk_calls (S j) paths ++ [MergeStage]) <= 40.
Proof.
  induction paths as [| f rest IH]; intros j run best Hrun Hbest Hpos.
  - pose proof (Nat.mod_upper_bound j 40 ltac:(lia)). simpl. lia.
  - pose proof (Nat.mod_upper_bound j 40 ltac:(lia)) as Hb.
    assert (Hrest : forall k g, nth_error rest k = Some g ->
                      (S (S j) + k) mod 40 = 0 -> contributes g <> None).
    { intros k g Hk Hm. apply (Hpos (S k) g Hk).
      replace (S j + S k) with (S (S j) + k) by lia. exact Hm. }
    cbn [chunk_calls].
    destruct (contributes f) as [[symbol n] |] eqn:Ec.
    + destruct (S j mod 40 =? 0) eqn:Em.
      * cbn [app staged_runs]. apply IH; [lia | lia | exact Hrest].
      * cbn [app staged_runs]. apply Nat.eqb_neq in Em.
        apply IH; [| exact Hbest | exact Hrest].
        destruct (mod40_succ j); lia.
    + cbn [app].
      assert (Hm : S j mod 40 <> 0).
      { intros Hm. apply (Hpos 0 f eq_refl); [| exact Ec].
        rewrite Nat.add_0_r. exact Hm. }
      apply IH; [| exact Hbest | exact Hrest].
      destruct (mod40_succ j); lia.
Qed.

(** C4 (as the code has it).  Take a completed run in which no file at
    a listing position that is a multiple of 40 is skipped.  Positions
    count every listed file, skipped or not: a merge follows the staging
    of the file at position i exactly when i is a multiple of 40, and
    one more merge ends the run; at most 40 files are staged between
    two consecutive merges. *)
Theorem C4_chunked_merge (cn0 : Db) (paths : list RawFile) (r : Run) :
  main cn0 paths = Completed r ->
  (forall k f, nth_error paths k = Some f -> S k mod 40 = 0 ->
               contributes f <> None) ->
  calls r = chunk_calls 1 paths ++ [MergeStage] /\
  max_staged_between_merges (calls r) <= 40.
Proof.
  intros H Hpos. pose proof (main_calls cn0 paths r H) as Hc.
  split; [exact Hc |].
  rewrite Hc. unfold max_staged_between_merges.
  apply (staged_runs_chunk paths 0 0 0); [simpl; lia | lia |].
  intros k f Hk Hm. apply (Hpos k f Hk). exact Hm.
Qed.

Lemma main_files41_calls :
  match main empty_db files41 with
  | Completed r =>
      calls r =
        map (fun k => LoadStage (upper (name_of k)) 1) (seq 1 39)
        ++ [MergeStage; LoadStage (upper (name_of 40)) 1; MergeStage]
  | Aborted _ _ => False
  end.
Proof. vm_compute. reflexivity. Qed.

Lemma main_files41 :
  exists r,
    main empty_db files41 = Completed r /\
    calls r =
      map (fun k => LoadStage (upper (name_of k)) 1) (seq 1 39)
      ++ [MergeStage; LoadStage (upper (name_of 40)) 1; MergeStage].
Proof.
  pose proof main_files41_calls as H.
  destruct (main empty_db files41) as [r | e r]; [| contradiction].
  exists r. split; [reflexivity | exact H].
Qed.

(** C4 (as stated) fails: in a listing of 41 files whose first file is
    empty (skipped) and whose other files each stage a row, the first
    merge comes after 39 staged files, at listing position 40: the
    skipped file counts toward the chunk boundary. *)
Lemma C4_skipped_file_counts_counterexample :
  exists r,
    main empty_db files41 = Completed r /\
    contributes (nth 0 files41 empty_file) = None /\
    staged_before_first_merge (calls r) = 39.
Proof.
  destruct main_files41 as [r [Hr Hc]]. exists r.
  split; [exact Hr |]. split; [reflexivity |].
  rewrite Hc. reflexivity.
Qed.

Lemma position_40_of_41 k : k < 41 -> S k mod 40 = 0 -> k = 39.
Proof.
  intros Hk Hm. pose proof (Nat.div_mod_eq (S k) 40) as E.
  rewrite Hm in E. lia.
Qed.

Lemma C4_chunked_merge_witness :
  exists r,
    main empty_db files41 = Completed r /\
    calls r = chunk_calls 1 files41 ++ [MergeStage] /\
    max_staged_between_merges (calls r) <= 40.
Proof.
  destruct main_files41 as [r [Hr _]]. exists r.
  split; [exact Hr |].
  apply (C4_chunked_merge empty_db files41 r Hr).
  intros k f Hk Hm.
  assert (Hlt : k < length files41).
  { apply nth_error_Some. rewrite Hk. discriminate. }
  rewrite (position_40_of_41 k Hlt Hm) in Hk.
  inversion Hk; subst f. discriminate.
Defined.

(** When the file at position 40 is itself skipped, the [continue] also
    passes over the merge test: the 79 other files of this listing are
    all staged before the first merge. *)
Example skipped_boundary_file :
  match main empty_db files80 with
  | Completed r =>
      staged_before_first_merge (calls r) = 79 /\
      max_staged_between_merges (calls r) = 79
  | Aborted _ _ => False
  end.
Proof. vm_compute. split; reflexivity. Qed.

(* ================================================================= *)
(** * Further properties *)

(** ** read_raw_csv *)

Lemma insert_by_date_perm b l : Permutation (insert_by_date b l) (b :: l).
Proof.
  induction l as [| x l IH]; [reflexivity |].
  simpl. destruct (bar_date b <? bar_date x)%Z; [reflexivity |].
  rewrite IH. apply perm_swap.
Qed.

Lemma insert_by_date_hd b l x :
  HdRel (fun a c => (bar_date a <= bar_date c)%Z) x l ->
  (bar_date x <= bar_date b)%Z ->
  HdRel (fun a c => (bar_date a <= bar_date c)%Z) x (insert_by_date b l).
Proof.
  intros Hl Hb. destruct l as [| y l]; simpl.
  - constructor. exact Hb.
  - destruct (bar_date b <? bar_date y)%Z; constructor.
    + exact Hb.
    + inversion Hl. assumption.
Qed.

Lemma insert_by_date_sorted b l :
  dates_ascending l -> dates_ascending (insert_by_date b l).
Proof.
  unfold dates_ascending. induction l as [| x l IH]; intros H.
  - simpl. repeat constructor.
  - simpl. destruct (Z.ltb_spec (bar_date b) (bar_date x)) as [Hlt | Hge].
    + constructor; [exact H | constructor; lia].
    + inversion H as [| ? ? Hs Hh]; subst.
      constructor; [apply IH; exact Hs |].
      apply insert_by_date_hd; assumption.
Qed.

Lemma fold_insert_sorted df acc :
  dates_ascending acc ->
  dates_ascending (fold_left (fun a b => insert_by_date b a) df acc).
Proof.
  revert acc. induction df as [| b df IH]; intros acc H; [exact H |].
  simpl. apply IH. apply insert_by_date_sorted. exact H.
Qed.

Lemma fold_insert_perm df acc :
  Permutation (fold_left (fun a b => insert_by_date b a) df acc) (acc ++ df).
Proof.
  revert acc. induction df as [| b df IH]; intros acc.
  - simpl. rewrite app_nil_r. reflexivity.
  - simpl. rewrite IH.
    apply Permutation_trans with ((b :: acc) ++ df).
    + apply Permutation_app_tail. apply insert_by_date_perm.
    + apply Permutation_middle.
Qed.

Lemma map_flat_map {A B C} (f : B -> C) (g : A -> list B) (l : list A) :
  map f (flat_map g l) = flat_map (fun x => map f (g x)) l.
Proof.
  induction l as [| x l IH]; [reflexivity |].
  simpl. rewrite map_app, IH. reflexivity.
Qed.

Lemma sort_by_date_perm df : Permutation (sort_by_date df) df.
Proof. unfold sort_by_date. apply (fold_insert_perm df []). Qed.

(** What a successful read returns, read off the definition. *)
Lemma read_raw_csv_inv f bars :
  read_raw_csv f = Ok bars ->
  exists df,
    parsed f = Ok df /\
    ~ missing_column df /\
    Permutation (map bar_date bars) (parsed_dates df) /\
    dates_ascending bars.
Proof.
  unfold read_raw_csv. destruct (parsed f) as [df |]; [| discriminate].
  cbn [bind]. set (cols := map normalize (columns df)).
  destruct (forallb (fun c => 0 <? count_col c cols) expected_columns) eqn:Eall;
    [| discriminate].
  cbn [negb].
  destruct (1 <? count_col "Date" cols); [discriminate |].
  destruct (existsb (fun c => 1 <? count_col c cols) numeric_columns);
    [discriminate |].
  intros H. injection H as <-. exists df.
  split; [reflexivity |]. split; [| split].
  - intros [c [Hexp Habs]]. rewrite forallb_forall in Eall.
    specialize (Eall c Hexp). fold cols in Habs.
    rewrite (count_col_absent c cols Habs) in Eall. discriminate.
  - match goal with
    | |- Permutation (map bar_date (sort_by_date ?X)) _ =>
        assert (E : map bar_date X = parsed_dates df)
    end.
    { unfold parsed_dates, date_of_record. fold cols. rewrite map_flat_map.
      apply flat_map_ext. intros rec.
      destruct (as_date (nth (index_of "Date" cols) rec (mkCell NaN None)));
        reflexivity. }
    rewrite <- E. apply Permutation_map. apply sort_by_date_perm.
  - unfold sort_by_date. apply fold_insert_sorted. constructor.
Qed.

(** X1.  The frame a successful [read_raw_csv] returns is in ascending
    date order, whatever the order of the records in the file. *)
Theorem X1_read_sorted_by_date (f : RawFile) (bars : list RawBar) :
  read_raw_csv f = Ok bars -> dates_ascending bars.
Proof.
  intros H. destruct (read_raw_csv_inv f bars H) as [df [_ [_ [_ Hs]]]].
  exact Hs.
Qed.

Lemma read_shuffled_file :
  read_raw_csv shuffled_file =
  Ok [mkRawBar (Fin 1) (Fin 1) (Fin 1) (Fin 1) (Fin 10) 1%Z;
      mkRawBar (Fin 2) (Fin 2) (Fin 2) (Fin 2) (Fin 20) 2%Z;
      mkRawBar (Fin 3) (Fin 3) (Fin 3) (Fin 3) (Fin 30) 3%Z].
Proof. reflexivity. Qed.

Lemma X1_read_sorted_by_date_witness :
  dates_ascending
    [mkRawBar (Fin 1) (Fin 1) (Fin 1) (Fin 1) (Fin 10) 1%Z;
     mkRawBar (Fin 2) (Fin 2) (Fin 2) (Fin 2) (Fin 20) 2%Z;
     mkRawBar (Fin 3) (Fin 3) (Fin 3) (Fin 3) (Fin 30) 3%Z].
Proof.
  exact (X1_read_sorted_by_date shuffled_file _ read_shuffled_file).
Defined.

(** X2.  A successful [read_raw_csv] keeps exactly the records whose
    Date cell parses: the dates of the returned frame are, up to order,
    the dates of those records, duplicates included; records with an
    unparseable date are dropped and no row is made up. *)
Theorem X2_read_keeps_dated_records (f : RawFile) (df : CsvFrame)
                                    (bars : list RawBar) :
  parsed f = Ok df ->
  read_raw_csv f = Ok bars ->
  Permutation (map bar_date bars) (parsed_dates df) /\
  length bars = length (parsed_dates df) /\
  length bars <= length (records df).
Proof.
  intros Hp H. destruct (read_raw_csv_inv f bars H) as [df' [Hp' [_ [Hperm _]]]].
  rewrite Hp in Hp'. injection Hp' as <-.
  split; [exact Hperm |].
  assert (Hlen : length bars = length (parsed_dates df)).
  { rewrite <- (length_map bar_date bars). apply Permutation_length. exact Hperm. }
  split; [exact Hlen |]. rewrite Hlen. unfold parsed_dates.
  induction (records df) as [| rec recs IH]; [simpl; lia |].
  cbn [flat_map]. rewrite length_app.
  destruct (date_of_record (map normalize (columns df)) rec); simpl; lia.
Qed.

Lemma X2_read_keeps_dated_records_witness :
  match parsed shuffled_file, read_raw_csv shuffled_file with
  | Ok df, Ok bars =>
      Permutation (map bar_date bars) (parsed_dates df) /\
      length bars = 3 /\ length (records df) = 4
  | _, _ => False
  end.
Proof.
  destruct (X2_read_keeps_dated_records shuffled_file _ _ eq_refl
              read_shuffled_file) as [Hperm _].
  split; [exact Hperm | split; reflexivity].
Defined.

Lemma count_col_present c cols : count_col c cols = 0 -> ~ In c cols.
Proof.
  unfold count_col. induction cols as [| x cols IH]; intros H Hin.
  - contradiction.
  - simpl in H. destruct (String.eqb_spec c x) as [E | E].
    + discriminate.
    + destruct Hin as [Hx | Hin]; [congruence | exact (IH H Hin)].
Qed.

(** X3.  For a file that parses, [read_raw_csv] raises KeyError exactly
    when one of Open, High, Low, Close, Volume, Date is absent from the
    header after stripping and title-casing the column names. *)
Theorem X3_read_key_error_iff_missing (f : RawFile) (df : CsvFrame) :
  parsed f = Ok df ->
  (read_raw_csv f = Raise KeyError <-> missing_column df).
Proof.
  intros Hp. split; [| apply read_raw_csv_missing; exact Hp].
  unfold read_raw_csv. rewrite Hp. cbn [bind].
  set (cols := map normalize (columns df)).
  destruct (forallb (fun c => 0 <? count_col c cols) expected_columns) eqn:Eall.
  - cbn [negb]. destruct (1 <? count_col "Date" cols); [discriminate |].
    destruct (existsb (fun c => 1 <? count_col c cols) numeric_columns);
      discriminate.
  - intros _.
    assert (Hex : exists c, In c expected_columns /\ (0 <? count_col c cols) = false).
    { clear -Eall. induction expected_columns as [| c l IH]; [discriminate |].
      simpl in Eall. apply andb_false_iff in Eall. destruct Eall as [E | E].
      - exists c. split; [left; reflexivity | exact E].
      - destruct (IH E) as [c' [Hin Hc]]. exists c'. split; [right |]; assumption. }
    destruct Hex as [c [Hin Hc]]. exists c. split; [exact Hin |].
    apply count_col_present. fold cols. apply Nat.ltb_ge in Hc. lia.
Qed.

Lemma X3_read_key_error_iff_missing_witness :
  read_raw_csv bad_file = Raise KeyError.
Proof.
  apply (proj2 (X3_read_key_error_iff_missing bad_file _ eq_refl)).
  exact bad_file_missing.
Defined.

(** ** compute_features: shape *)

Lemma raw_column {A} (f : FeatureRow -> A) (g : RawBar -> A) df :
  (forall t, t < length df -> f (row_at df t) = g (nth t df nan_bar)) ->
  map f (compute_features df) = map g df.
Proof.
  intros H. apply (nth_ext _ _ (f nan_row) (g nan_bar)).
  - rewrite !length_map. apply length_compute_features.
  - intros t Ht. rewrite length_map, length_compute_features in Ht.
    rewrite !map_nth. apply (H t Ht).
Qed.

(** X4.  [compute_features] returns one row per input bar, in input
    order, and copies Open, High, Low, Close, Volume and date unchanged;
    in particular a frame in ascending date order stays so. *)
Theorem X4_features_keep_raw_columns (df : list RawBar) :
  length (compute_features df) = length df /\
  map Open (compute_features df) = map bar_open df /\
  map High (compute_features df) = map bar_high df /\
  map Low (compute_features df) = map bar_low df /\
  map Close (compute_features df) = map bar_close df /\
  map Volume (compute_features df) = map bar_volume df /\
  map date (compute_features df) = map bar_date df.
Proof.
  split; [apply length_compute_features |].
  repeat split; apply raw_column; intros t Ht;
    rewrite (row_at_eq df t Ht); reflexivity.
Qed.

(** ** compute_features: exponential averages *)

Lemma forallb_at (s : series) t :
  forallb is_fin s = true -> t < length s -> is_fin (at_ s t) = true.
Proof.
  intros H Ht. rewrite forallb_forall in H. apply H. apply nth_In. exact Ht.
Qed.

Lemma ewm_loop_fin alpha (cs : series) :
  forallb is_fin cs = true ->
  forall w ow, forallb is_fin (ewm_loop alpha (Fin w) ow cs) = true.
Proof.
  induction cs as [| c cs IH]; intros Hfin w ow; [reflexivity |].
  simpl in Hfin. apply andb_true_iff in Hfin. destruct Hfin as [Hc Hcs].
  destruct c as [| | | c]; try discriminate.
  simpl. destruct (Req_dec_T w c); simpl; apply IH; exact Hcs.
Qed.

Lemma ewm_mean_fin span (s : series) :
  forallb is_fin s = true -> forallb is_fin (ewm_mean span s) = true.
Proof.
  intros Hfin. unfold ewm_mean. rewrite (prep_values_fin _ Hfin).
  destruct s as [| x rest]; [reflexivity |].
  simpl in Hfin. apply andb_true_iff in Hfin. destruct Hfin as [Hx Hrest].
  destruct x as [| | | x]; try discriminate.
  simpl. apply ewm_loop_fin. exact Hrest.
Qed.

Lemma map2_fsub_fin (xs ys : series) :
  forallb is_fin xs = true -> forallb is_fin ys = true ->
  forallb is_fin (map2 fsub xs ys) = true.
Proof.
  revert ys. induction xs as [| x xs IH]; intros ys Hx Hy; [reflexivity |].
  destruct ys as [| y ys]; [reflexivity |].
  simpl in Hx, Hy. apply andb_true_iff in Hx. apply andb_true_iff in Hy.
  destruct Hx as [Hx Hxs]. destruct Hy as [Hy Hys].
  destruct x; try discriminate. destruct y; try discriminate.
  simpl. apply IH; assumption.
Qed.

Lemma length_map2_eq {A B C} (f : A -> B -> C) xs ys :
  length xs = length ys -> length (map2 f xs ys) = length xs.
Proof.
  revert ys. induction xs as [| x xs IH]; intros ys H; [reflexivity |].
  destruct ys as [| y ys]; [discriminate |].
  simpl. f_equal. apply IH. simpl in H. lia.
Qed.

Lemma length_closes df : length (closes df) = length df.
Proof. unfold closes. apply length_map. Qed.

Lemma length_macd (close : series) : length (Col.Macd close) = length close.
Proof.
  unfold Col.Macd, Col.Ema_12, Col.Ema_26.
  rewrite length_map2_eq; rewrite !length_ewm_mean; reflexivity.
Qed.

Lemma length_macd_signal (close : series) :
  length (Col.Macd_Signal close) = length close.
Proof. unfold Col.Macd_Signal. rewrite length_ewm_mean. apply length_macd. Qed.

Lemma length_macd_hist (close : series) :
  length (Col.Macd_Hist close) = length close.
Proof.
  unfold Col.Macd_Hist.
  rewrite length_map2_eq; rewrite ?length_macd, ?length_macd_signal; reflexivity.
Qed.

(** X5.  The exponential averages have no warm-up: on a close series
    without nulls Ema_12, Ema_26, Macd, Macd_Signal and Macd_Hist are
    numbers in every row, the first included. *)
Theorem X5_ema_macd_never_null (df : list RawBar) (t : nat) :
  forallb is_fin (closes df) = true ->
  t < length df ->
  is_fin (Ema_12 (row_at df t)) = true /\
  is_fin (Ema_26 (row_at df t)) = true /\
  is_fin (Macd (row_at df t)) = true /\
  is_fin (Macd_Signal (row_at df t)) = true /\
  is_fin (Macd_Hist (row_at df t)) = true.
Proof.
  intros Hfin Ht. rewrite (row_at_eq df t Ht). simpl.
  assert (H12 : forallb is_fin (Col.Ema_12 (closes df)) = true)
    by (apply ewm_mean_fin; exact Hfin).
  assert (H26 : forallb is_fin (Col.Ema_26 (closes df)) = true)
    by (apply ewm_mean_fin; exact Hfin).
  assert (Hm : forallb is_fin (Col.Macd (closes df)) = true)
    by (apply map2_fsub_fin; assumption).
  assert (Hs : forallb is_fin (Col.Macd_Signal (closes df)) = true)
    by (apply ewm_mean_fin; exact Hm).
  assert (Hh : forallb is_fin (Col.Macd_Hist (closes df)) = true)
    by (apply map2_fsub_fin; assumption).
  repeat split; apply forallb_at; try assumption.
  - unfold Col.Ema_12. rewrite length_ewm_mean, length_closes. exact Ht.
  - unfold Col.Ema_26. rewrite length_ewm_mean, length_closes. exact Ht.
  - rewrite length_macd, length_closes. exact Ht.
  - rewrite length_macd_signal, length_closes. exact Ht.
  - rewrite length_macd_hist, length_closes. exact Ht.
Qed.

Lemma X5_ema_macd_never_null_witness :
  is_fin (Ema_26 (row_at bars5 0)) = true /\
  is_fin (Macd_Signal (row_at bars5 0)) = true.
Proof.
  destruct (X5_ema_macd_never_null bars5 0 eq_refl ltac:(simpl; lia))
    as [_ [H26 [_ [Hs _]]]].
  split; assumption.
Defined.

Lemma ewm_loop_const alpha c n :
  forall ow, ewm_loop alpha (Fin c) ow (repeat (Fin c) n) = repeat (Fin c) n.
Proof.
  induction n as [| n IH]; intros ow; [reflexivity |].
  simpl. destruct (Req_dec_T c c) as [_ | Hne]; [| contradiction].
  rewrite IH. reflexivity.
Qed.

Lemma ewm_mean_const span c n :
  ewm_mean span (repeat (Fin c) n) = repeat (Fin c) n.
Proof.
  unfold ewm_mean, prep_values. rewrite map_repeat. simpl inf_to_nan.
  destruct n as [| n]; [reflexivity |].
  simpl. rewrite ewm_loop_const. reflexivity.
Qed.

Lemma map2_repeat {A B C} (f : A -> B -> C) a b n :
  map2 f (repeat a n) (repeat b n) = repeat (f a b) n.
Proof. induction n as [| n IH]; [reflexivity |]. simpl. rewrite IH. reflexivity. Qed.

Lemma at_repeat x n t : t < n -> at_ (repeat x n) t = x.
Proof. intros H. unfold at_. apply nth_repeat_lt. exact H. Qed.

Lemma macd_const c n : Col.Macd (repeat (Fin c) n) = repeat (Fin 0) n.
Proof.
  unfold Col.Macd, Col.Ema_12, Col.Ema_26. rewrite !ewm_mean_const, map2_repeat.
  simpl. replace (c + - c)%R with 0%R by ring. reflexivity.
Qed.

(** X6.  On a flat close series (every close the same number c) Ema_12
    and Ema_26 equal c in every row, and Macd, Macd_Signal and
    Macd_Hist are 0 in every row. *)
Theorem X6_flat_series_ema_macd (df : list RawBar) (c : R) (t : nat) :
  closes df = repeat (Fin c) (length df) ->
  t < length df ->
  Ema_12 (row_at df t) = Fin c /\
  Ema_26 (row_at df t) = Fin c /\
  Macd (row_at df t) = Fin 0 /\
  Macd_Signal (row_at df t) = Fin 0 /\
  Macd_Hist (row_at df t) = Fin 0.
Proof.
  intros Hflat Ht. rewrite (row_at_eq df t Ht). simpl. rewrite Hflat.
  assert (Hs : Col.Macd_Signal (repeat (Fin c) (length df))
               = repeat (Fin 0) (length df)).
  { unfold Col.Macd_Signal. rewrite macd_const. apply ewm_mean_const. }
  assert (Hh : Col.Macd_Hist (repeat (Fin c) (length df))
               = repeat (Fin 0) (length df)).
  { unfold Col.Macd_Hist. rewrite Hs, macd_const, map2_repeat.
    simpl. replace (0 + - 0)%R with 0%R by ring. reflexivity. }
  unfold Col.Ema_12, Col.Ema_26.
  rewrite !ewm_mean_const, macd_const, Hs, Hh.
  repeat split; apply at_repeat; exact Ht.
Qed.

Lemma X6_flat_series_ema_macd_witness :
  Ema_12 (row_at bars_steady 29) = Fin 7 /\
  Macd_Hist (row_at bars_steady 29) = Fin 0.
Proof.
  destruct (X6_flat_series_ema_macd bars_steady 7 29 eq_refl ltac:(simpl; lia))
    as [H12 [_ [_ [_ Hh]]]].
  split; assumption.
Defined.

Lemma forallb_repeat_fin c n : forallb is_fin (repeat (Fin c) n) = true.
Proof. induction n as [| n IH]; [reflexivity | exact IH]. Qed.

Lemma trailing_repeat c len n t :
  n <= S t -> t < len -> trailing n t (repeat (Fin c) len) = repeat c n.
Proof.
  intros Hn Ht. unfold trailing.
  rewrite (map_ext_in _ (fun _ => c)).
  - rewrite map_const, length_seq. reflexivity.
  - intros i Hi. apply in_seq in Hi. rewrite at_repeat by lia. reflexivity.
Qed.

Lemma Rmean_repeat20 c : Rmean (repeat c 20) = c.
Proof. unfold Rmean, Rsum. simpl. lra. Qed.

Lemma ssqdm_repeat20 c : ssqdm (repeat c 20) = 0%R.
Proof. unfold ssqdm. rewrite Rmean_repeat20. unfold Rsum. simpl. ring. Qed.

(** X7.  On a flat close series the Bollinger bands collapse: from the
    20th row on, Sma_20, Bb_Middle, Bb_Upper and Bb_Lower all equal the
    close. *)
Theorem X7_flat_series_bollinger (df : list RawBar) (c : R) (t : nat) :
  closes df = repeat (Fin c) (length df) ->
  19 <= t -> t < length df ->
  Sma_20 (row_at df t) = Fin c /\
  Bb_Middle (row_at df t) = Fin c /\
  Bb_Upper (row_at df t) = Fin c /\
  Bb_Lower (row_at df t) = Fin c.
Proof.
  intros Hflat H19 Ht.
  assert (Hfin : forallb is_fin (window 20 t (closes df)) = true).
  { apply forallb_window. rewrite Hflat. apply forallb_repeat_fin. }
  destruct (bollinger_sample_std df t H19 Ht Hfin) as [Hs [Hu Hl]].
  destruct (bollinger_row_at df t Ht) as [Es [Em _]].
  assert (Hmid : Bb_Middle (row_at df t) = Sma_20 (row_at df t))
    by (rewrite Es, Em; reflexivity).
  rewrite Hmid, Hs, Hu, Hl, Hflat.
  rewrite (trailing_repeat c (length df) 20 t) by lia.
  rewrite Rmean_repeat20, ssqdm_repeat20.
  replace (0 / 19)%R with 0%R by lra. rewrite sqrt_0.
  repeat split; f_equal; ring.
Qed.

Lemma X7_flat_series_bollinger_witness :
  Bb_Upper (row_at bars_steady 19) = Fin 7 /\
  Bb_Lower (row_at bars_steady 19) = Fin 7.
Proof.
  destruct (X7_flat_series_bollinger bars_steady 7 19 eq_refl (le_n 19)
              ltac:(simpl; lia)) as [_ [_ [Hu Hl]]].
  split; assumption.
Defined.

Lemma close_row_at df t :
  t < length df -> Close (row_at df t) = at_ (closes df) t.
Proof.
  intros Ht. rewrite (row_at_eq df t Ht). simpl.
  unfold closes. rewrite at_map_bar by reflexivity. reflexivity.
Qed.

Lemma ema_step_between alpha e c :
  (0 < alpha < 1)%R ->
  (Rmin e c <= (1 - alpha) * e + alpha * c <= Rmax e c)%R.
Proof.
  intros Ha. unfold Rmin, Rmax. destruct (Rle_dec e c); nra.
Qed.

(** X8.  On a close series without nulls each step of Ema_12 and of
    Ema_26 lands between the previous value of the average and the
    current close. *)
Theorem X8_ema_between_previous_and_close (df : list RawBar) (k : nat) :
  forallb is_fin (closes df) = true ->
  S k < length df ->
  (Rmin (fin_val (Ema_12 (row_at df k))) (fin_val (Close (row_at df (S k))))
   <= fin_val (Ema_12 (row_at df (S k)))
   <= Rmax (fin_val (Ema_12 (row_at df k))) (fin_val (Close (row_at df (S k)))))%R
  /\
  (Rmin (fin_val (Ema_26 (row_at df k))) (fin_val (Close (row_at df (S k))))
   <= fin_val (Ema_26 (row_at df (S k)))
   <= Rmax (fin_val (Ema_26 (row_at df k))) (fin_val (Close (row_at df (S k)))))%R.
Proof.
  intros Hfin Hk.
  assert (Hk0 : k < length df) by lia.
  assert (Hkc : S k < length (closes df)) by (rewrite length_closes; exact Hk).
  rewrite (close_row_at df (S k) Hk).
  rewrite (row_at_eq df k Hk0), (row_at_eq df (S k) Hk). simpl.
  destruct (ewm_mean_recurrence 12 (closes df) Hfin) as [_ H12].
  destruct (ewm_mean_recurrence 26 (closes df) Hfin) as [_ H26].
  unfold Col.Ema_12, Col.Ema_26.
  rewrite (H12 k Hkc), (H26 k Hkc). simpl.
  rewrite (ewm_alpha_span 12), (ewm_alpha_span 26) by lra.
  split; apply ema_step_between; lra.
Qed.

Lemma X8_ema_between_previous_and_close_witness :
  (Rmin (fin_val (Ema_12 (row_at bars5 0))) (fin_val (Close (row_at bars5 1)))
   <= fin_val (Ema_12 (row_at bars5 1))
   <= Rmax (fin_val (Ema_12 (row_at bars5 0))) (fin_val (Close (row_at bars5 1))))%R.
Proof.
  exact (proj1 (X8_ema_between_previous_and_close bars5 0 eq_refl
                  ltac:(simpl; lia))).
Defined.

(** ** compute_features: returns and momentum *)

Lemma length_shift k (s : series) : length (shift k s) = length s.
Proof.
  unfold shift. rewrite length_firstn, length_app, repeat_length. lia.
Qed.

Lemma at_shift k (s : series) t :
  t < length s ->
  at_ (shift k s) t = if t <? k then NaN else at_ s (t - k).
Proof.
  intros Ht. unfold at_, shift. rewrite nth_firstn.
  destruct (Nat.ltb_spec t (length s)) as [_ | Hge]; [| lia].
  destruct (Nat.ltb_spec t k) as [Hlt | Hge].
  - rewrite app_nth1 by (rewrite repeat_length; exact Hlt). apply nth_repeat.
  - rewrite app_nth2 by (rewrite repeat_length; exact Hge).
    rewrite repeat_length. reflexivity.
Qed.

Lemma at_fillna v (s : series) t :
  t < length s ->
  at_ (fillna v s) t = match at_ s t with NaN => v | x => x end.
Proof.
  intros Ht. unfold at_, fillna.
  rewrite (nth_indep _ NaN v) by (rewrite length_map; exact Ht).
  etransitivity;
    [exact (map_nth (fun x => match x with NaN => v | _ => x end) s NaN t) |].
  destruct (nth t s NaN); reflexivity.
Qed.

Lemma length_ffill_from last (s : series) :
  length (ffill_from last s) = length s.
Proof.
  revert last. induction s as [| x s IH]; intros last; [reflexivity |].
  destruct x; simpl; rewrite IH; reflexivity.
Qed.

Lemma fdiv_nan_r x : fdiv x NaN = NaN.
Proof. destruct x; reflexivity. Qed.

Lemma fsub_nan_r x : fsub x NaN = NaN.
Proof. destruct x; reflexivity. Qed.

Lemma fdiv_fin a b : b <> 0%R -> fdiv (Fin a) (Fin b) = Fin (a / b).
Proof.
  intros Hb. simpl. unfold Rsign.
  destruct (total_order_T b 0) as [[Hlt | Heq] | Hgt];
    [reflexivity | contradiction | reflexivity].
Qed.

Lemma at_pct_change (s : series) t :
  t < length s ->
  at_ (pct_change s) t =
  fsub (fdiv (at_ (ffill s) t) (at_ (shift 1 (ffill s)) t)) (Fin 1).
Proof.
  intros Ht. unfold pct_change. rewrite at_map_nan by reflexivity.
  assert (Hl : length (ffill s) = length s) by apply length_ffill_from.
  rewrite at_map2; [reflexivity | lia | rewrite length_shift; lia].
Qed.

Lemma length_pct_change (s : series) : length (pct_change s) = length s.
Proof.
  unfold pct_change. rewrite length_map, length_map2_eq.
  - apply length_ffill_from.
  - rewrite length_shift. reflexivity.
Qed.

Lemma at_log_ratio (s : series) t :
  t < length s ->
  at_ (Col.Log_Returns s) t =
  match inf_to_nan (np_log (fdiv (at_ s t) (at_ (shift 1 s) t))) with
  | NaN => Fin 0
  | x => x
  end.
Proof.
  intros Ht. unfold Col.Log_Returns, replace_inf_nan.
  rewrite at_fillna.
  - rewrite !at_map_nan by reflexivity.
    rewrite at_map2; [reflexivity | exact Ht | rewrite length_shift; exact Ht].
  - rewrite !length_map, length_map2_eq; [exact Ht |].
    rewrite length_shift. reflexivity.
Qed.

(** X9.  For every input frame, Returns is never null and Log_Returns
    is a finite number in every row (its infinities and nulls are
    replaced by 0); both are 0 in the first row. *)
Theorem X9_returns_never_null (df : list RawBar) (t : nat) :
  t < length df ->
  notna (Returns (row_at df t)) = true /\
  is_fin (Log_Returns (row_at df t)) = true /\
  Returns (row_at df 0) = Fin 0 /\
  Log_Returns (row_at df 0) = Fin 0.
Proof.
  intros Ht.
  assert (H0 : 0 < length df) by lia.
  assert (Hc : t < length (closes df)) by (rewrite length_closes; exact Ht).
  assert (Hc0 : 0 < length (closes df)) by (rewrite length_closes; exact H0).
  rewrite (row_at_eq df t Ht), (row_at_eq df 0 H0). simpl.
  unfold Col.Returns. rewrite !at_fillna by (rewrite length_pct_change; assumption).
  rewrite !at_log_ratio by assumption.
  repeat split.
  - destruct (at_ (pct_change (closes df)) t); reflexivity.
  - destruct (inf_to_nan _) eqn:E; try reflexivity;
      destruct (np_log _); discriminate.
  - rewrite at_pct_change by exact Hc0.
    rewrite at_shift by (unfold ffill; rewrite length_ffill_from; exact Hc0).
    simpl. rewrite fdiv_nan_r. reflexivity.
  - rewrite at_shift by exact Hc0. simpl. rewrite fdiv_nan_r. reflexivity.
Qed.

Lemma X9_returns_never_null_witness :
  notna (Returns (row_at bars01 1)) = true /\
  is_fin (Log_Returns (row_at bars01 1)) = true.
Proof.
  destruct (X9_returns_never_null bars01 1 ltac:(simpl; lia)) as [Hr [Hl _]].
  split; assumption.
Defined.

Lemma at_ffill_from_notna last (s : series) t :
  notna (at_ s t) = true -> at_ (ffill_from last s) t = at_ s t.
Proof.
  revert last t. induction s as [| x s IH]; intros last t H.
  - destruct t; discriminate.
  - destruct t as [| t].
    + unfold at_ in *. simpl in *. destruct x; try discriminate; reflexivity.
    + destruct x; simpl; apply IH; exact H.
Qed.

(** X10.  Between two rows with non-null closes, Returns is the close
    divided by the previous close, minus 1, computed in that order
    (C[t]/C[t-1] - 1), or 0 where that is not a number; it is
    C[t]/C[t-1] - 1 whenever both closes are finite and the previous
    one is not zero. *)
Theorem X10_returns_relative_change (df : list RawBar) (k : nat) :
  S k < length df ->
  notna (Close (row_at df k)) = true ->
  notna (Close (row_at df (S k))) = true ->
  Returns (row_at df (S k)) =
    match fsub (fdiv (Close (row_at df (S k))) (Close (row_at df k))) (Fin 1)
    with
    | NaN => Fin 0
    | x => x
    end /\
  (is_fin (Close (row_at df k)) = true ->
   is_fin (Close (row_at df (S k))) = true ->
   fin_val (Close (row_at df k)) <> 0%R ->
   Returns (row_at df (S k)) =
     fsub (fdiv (Close (row_at df (S k))) (Close (row_at df k))) (Fin 1)).
Proof.
  intros Hk Hn0 Hn1.
  assert (Hk0 : k < length df) by lia.
  assert (Hc : S k < length (closes df)) by (rewrite length_closes; exact Hk).
  rewrite (close_row_at df k Hk0) in *.
  rewrite (close_row_at df (S k) Hk) in *.
  assert (E : Returns (row_at df (S k)) =
              match fsub (fdiv (at_ (closes df) (S k)) (at_ (closes df) k))
                         (Fin 1)
              with
              | NaN => Fin 0
              | x => x
              end).
  { rewrite (row_at_eq df (S k) Hk). simpl.
    unfold Col.Returns.
    rewrite at_fillna by (rewrite length_pct_change; exact Hc).
    rewrite at_pct_change by exact Hc.
    rewrite at_shift by (unfold ffill; rewrite length_ffill_from; exact Hc).
    simpl. rewrite Nat.sub_0_r. unfold ffill.
    rewrite !at_ffill_from_notna by assumption.
    destruct (fsub _ _); reflexivity. }
  split; [exact E |].
  intros F0 F1 Hnz. rewrite E.
  destruct (at_ (closes df) k) as [| | | c0]; try discriminate.
  destruct (at_ (closes df) (S k)) as [| | | c1]; try discriminate.
  simpl in Hnz. rewrite (fdiv_fin c1 c0 Hnz). reflexivity.
Qed.

Lemma X10_returns_relative_change_witness :
  Returns (row_at bars5 1) =
  fsub (fdiv (Close (row_at bars5 1)) (Close (row_at bars5 0))) (Fin 1).
Proof.
  assert (Hnz : fin_val (Close (row_at bars5 0)) <> 0%R).
  { rewrite (row_at_eq bars5 0) by (simpl; lia). simpl. lra. }
  apply (proj2 (X10_returns_relative_change bars5 0 ltac:(simpl; lia)
                  eq_refl eq_refl) eq_refl eq_refl Hnz).
Defined.

(** X11.  Momentum_20 is positional: for every input frame it is null
    in the first 20 rows and, from row 20 on, the close of the row
    minus the close 20 rows earlier in the frame. *)
Theorem X11_momentum_positional (df : list RawBar) (t : nat) :
  t < length df ->
  Momentum_20 (row_at df t) =
  if t <? 20 then NaN
  else fsub (Close (row_at df t)) (Close (row_at df (t - 20))).
Proof.
  intros Ht.
  assert (Hc : t < length (closes df)) by (rewrite length_closes; exact Ht).
  rewrite (close_row_at df t Ht).
  rewrite (close_row_at df (t - 20)) by lia.
  rewrite (row_at_eq df t Ht). simpl. unfold Col.Momentum_20.
  rewrite at_map2 by (rewrite ?length_shift; exact Hc).
  rewrite at_shift by exact Hc.
  destruct (t <? 20); [apply fsub_nan_r | reflexivity].
Qed.

Lemma X11_momentum_positional_witness :
  Momentum_20 (row_at bars_steady 19) = NaN /\
  Momentum_20 (row_at bars_steady 20) =
    fsub (Close (row_at bars_steady 20)) (Close (row_at bars_steady 0)).
Proof.
  split.
  - exact (X11_momentum_positional bars_steady 19 ltac:(simpl; lia)).
  - exact (X11_momentum_positional bars_steady 20 ltac:(simpl; lia)).
Defined.

(** ** compute_features: rolling windows *)

(** X12.  Rolling windows are never partial: for every input frame,
    Sma_N is null in the first N-1 rows, and in the first 19 rows so
    are Bb_Middle, Bb_Upper, Bb_Lower, Volatility_20, Volume_Sma_20 and
    Volume_Ratio. *)
Theorem X12_rolling_warmup_null (df : list RawBar) (t : nat) :
  t < length df ->
  (forall n, In n sma_windows -> t < n - 1 ->
             Sma_field n (row_at df t) = NaN) /\
  (t < 19 ->
   Bb_Middle (row_at df t) = NaN /\
   Bb_Upper (row_at df t) = NaN /\
   Bb_Lower (row_at df t) = NaN /\
   Volatility_20 (row_at df t) = NaN /\
   Volume_Sma_20 (row_at df t) = NaN /\
   Volume_Ratio (row_at df t) = NaN).
Proof.
  intros Ht. split.
  - intros n Hn Hlt. rewrite (Sma_field_at df n t Hn Ht).
    apply at_rolling_warmup. lia.
  - intros H19.
    assert (Hvs : Volume_Sma_20 (row_at df t) = NaN).
    { rewrite (row_at_eq df t Ht). simpl. apply at_rolling_warmup. lia. }
    destruct (bollinger_row_at df t Ht) as [_ [Em [Eu El]]].
    assert (Hc : t < length (closes df)) by (rewrite length_closes; exact Ht).
    destruct (bollinger_rows (closes df) t Hc)
      as [_ [[Hm [Hu Hl]] | [rs [H20 _]]]]; [| lia].
    rewrite Em, Eu, El, Hm, Hu, Hl.
    rewrite (volume_ratio_row df t Ht), Hvs, fdiv_nan_r.
    repeat split; try reflexivity.
    rewrite (row_at_eq df t Ht). simpl. apply at_rolling_warmup. lia.
Qed.

Lemma X12_rolling_warmup_null_witness :
  Sma_5 (row_at bars_steady 3) = NaN /\
  Bb_Upper (row_at bars_steady 18) = NaN /\
  Volume_Ratio (row_at bars_steady 18) = NaN.
Proof.
  split.
  - apply (proj1 (X12_rolling_warmup_null bars_steady 3 ltac:(simpl; lia)) 5).
    + left. reflexivity.
    + simpl; lia.
  - destruct (proj2 (X12_rolling_warmup_null bars_steady 18 ltac:(simpl; lia))
                ltac:(lia)) as [_ [Hu [_ [_ [_ Hr]]]]].
    split; assumption.
Defined.



Lemma all_fin_not_fin (s : series) x :
  In x s -> is_fin x = false -> all_fin s = None.
Proof.
  induction s as [| y s IH]; intros Hin Hx; [contradiction |].
  destruct Hin as [-> | Hin].
  - destruct x; try reflexivity. discriminate.
  - simpl. destruct y; try reflexivity. rewrite (IH Hin Hx). reflexivity.
Qed.

(** X14.  A null or infinite close makes every moving average whose
    window covers it null: Sma_N at row t is null when some close at a
    position between t-N+1 and t is not a finite number. *)
Theorem X14_null_close_voids_window (df : list RawBar) (n t i : nat) :
  In n sma_windows ->
  t < length df ->
  S t - n <= i <= t ->
  is_fin (Close (row_at df i)) = false ->
  Sma_field n (row_at df t) = NaN.
Proof.
  intros Hn Ht Hi Hnf.
  rewrite (close_row_at df i) in Hnf by lia.
  rewrite (Sma_field_at df n t Hn Ht).
  assert (Hc : t < length (closes df)) by (rewrite length_closes; exact Ht).
  unfold Col.Sma, rolling_mean. rewrite at_rolling by exact Hc.
  destruct (Nat.leb_spec n (S t)) as [Hfull | _]; [| reflexivity].
  rewrite (all_fin_not_fin _ (inf_to_nan (at_ (closes df) i))); [reflexivity | |].
  - rewrite window_seq by (unfold prep_values; rewrite ?length_map; assumption).
    unfold prep_values.
    rewrite <- (at_map_nan inf_to_nan (closes df) i) by reflexivity.
    apply (in_map (at_ (map inf_to_nan (closes df)))).
    apply in_seq. lia.
  - destruct (at_ (closes df) i); try reflexivity. discriminate.
Qed.

Lemma X14_null_close_voids_window_witness :
  Sma_5 (row_at bars_hole 5) = NaN.
Proof.
  apply (X14_null_close_voids_window bars_hole 5 5 2).
  - left. reflexivity.
  - simpl; lia.
  - simpl; lia.
  - reflexivity.
Defined.

(** ** load_stage *)

Lemma staged_as_length symbol dfp staged :
  staged_as symbol dfp staged -> length staged = length dfp.
Proof. induction 1; simpl; congruence. Qed.

(** X15.  A successful [load_stage] only appends: the rows already in
    the staging table stay where they are, the permanent table is not
    touched, and one row is added per frame row, in frame order, keyed
    by the given symbol and the row's date. *)
Theorem X15_load_stage_appends (cn : Db) (symbol : string)
                               (dfp : list FeatureRow) (cn' : Db) :
  load_stage cn symbol dfp = Ok cn' ->
  processed_prices cn' = processed_prices cn /\
  exists staged,
    processed_stage cn' = processed_stage cn ++ staged /\
    length staged = length dfp /\
    map row_key staged = map (fun r => (symbol, date r)) dfp.
Proof.
  intros H. destruct (load_stage_inv cn symbol dfp cn' H) as [staged [Hst [Hs Hp]]].
  split; [exact Hp |]. exists staged. split; [exact Hs |].
  split; [apply (staged_as_length symbol); exact Hst |].
  apply staged_as_keys. exact Hst.
Qed.

Lemma load_bars5_over_rows :
  exists cn',
    load_stage (mkDb [blank_row "XYZ" 9] [blank_row "ABC" 1]) "ABC"
               (compute_features bars5) = Ok cn'.
Proof. eexists. reflexivity. Qed.

Lemma X15_load_stage_appends_witness :
  exists cn',
    load_stage (mkDb [blank_row "XYZ" 9] [blank_row "ABC" 1]) "ABC"
               (compute_features bars5) = Ok cn' /\
    processed_prices cn' = [blank_row "ABC" 1] /\
    length (processed_stage cn') = 6.
Proof.
  destruct load_bars5_over_rows as [cn' H]. exists cn'.
  destruct (X15_load_stage_appends _ _ _ _ H) as [Hp [staged [Hs [Hl _]]]].
  split; [exact H |]. split; [exact Hp |].
  rewrite Hs, length_app, Hl. reflexivity.
Defined.

Lemma stage_tuple_raise symbol r e :
  stage_tuple symbol r = Raise e ->
  e = OverflowError /\ (Volume r = PInf \/ Volume r = NInf).
Proof.
  unfold stage_tuple, nullable_int.
  destruct (Volume r); simpl; intros H; try discriminate;
    inversion H; split; auto.
Qed.

Lemma stage_tuple_inf symbol r :
  Volume r = PInf \/ Volume r = NInf ->
  stage_tuple symbol r = Raise OverflowError.
Proof.
  unfold stage_tuple, nullable_int. intros [-> | ->]; reflexivity.
Qed.

Lemma mapM_raise {A B} (f : A -> result B) xs e :
  mapM f xs = Raise e -> exists x, In x xs /\ f x = Raise e.
Proof.
  induction xs as [| x xs IH]; intros H; [discriminate |].
  simpl in H. destruct (f x) as [y |] eqn:Ex.
  - simpl in H. destruct (mapM f xs) as [ys |]; [discriminate |].
    simpl in H. destruct (IH H) as [x' [Hin Hx']].
    exists x'. split; [right |]; assumption.
  - simpl in H. exists x. split; [left; reflexivity | congruence].
Qed.

Lemma mapM_ok_all {A B} (f : A -> result B) xs ys x :
  mapM f xs = Ok ys -> In x xs -> exists y, f x = Ok y.
Proof.
  intros H Hin. apply mapM_Forall2 in H. revert Hin.
  induction H as [| a b l l' Hab _ IH]; intros Hin; [contradiction |].
  destruct Hin as [<- | Hin]; [exists b; exact Hab | exact (IH Hin)].
Qed.

(** X16.  [load_stage] fails exactly when some row has an infinite
    Volume, and then with OverflowError (from [int(inf)]); no other
    value of any field makes it fail. *)
Theorem X16_load_stage_overflow (cn : Db) (symbol : string)
                                (dfp : list FeatureRow) :
  (forall e, load_stage cn symbol dfp = Raise e -> e = OverflowError) /\
  (load_stage cn symbol dfp = Raise OverflowError <->
   exists r, In r dfp /\ (Volume r = PInf \/ Volume r = NInf)).
Proof.
  assert (Hraise : forall e, load_stage cn symbol dfp = Raise e ->
            e = OverflowError /\
            exists r, In r dfp /\ (Volume r = PInf \/ Volume r = NInf)).
  { intros e H. unfold load_stage in H.
    destruct (mapM (stage_tuple symbol) dfp) as [rows |] eqn:E; [discriminate |].
    simpl in H. inversion H; subst.
    destruct (mapM_raise _ _ _ E) as [r [Hin Hr]].
    destruct (stage_tuple_raise symbol r e Hr) as [He Hv].
    split; [exact He |]. exists r. split; assumption. }
  split; [intros e H; exact (proj1 (Hraise e H)) |].
  split; [intros H; exact (proj2 (Hraise _ H)) |].
  intros [r [Hin Hv]]. unfold load_stage.
  destruct (mapM (stage_tuple symbol) dfp) as [rows | e] eqn:E.
  - destruct (mapM_ok_all _ _ _ r E Hin) as [row Hrow].
    rewrite (stage_tuple_inf symbol r Hv) in Hrow. discriminate.
  - simpl. destruct (mapM_raise _ _ _ E) as [r' [_ Hr']].
    destruct (stage_tuple_raise symbol r' e Hr') as [-> _]. reflexivity.
Qed.

Lemma X16_load_stage_overflow_witness :
  load_stage empty_db "ABC" (compute_features bars5 ++ [row_inf_volume])
  = Raise OverflowError.
Proof.
  apply (proj2 (X16_load_stage_overflow empty_db "ABC"
                  (compute_features bars5 ++ [row_inf_volume]))).
  exists row_inf_volume. split.
  - apply in_or_app. right. left. reflexivity.
  - left. reflexivity.
Defined.

(** ** merge_stage *)

Lemma on_key_sym a b : on_key a b = on_key b a.
Proof. unfold on_key. rewrite String.eqb_sym, Z.eqb_sym. reflexivity. Qed.

Lemma on_key_false a b : on_key a b = false <-> row_key a <> row_key b.
Proof.
  split.
  - intros H E. apply on_key_true in E. congruence.
  - intros H. destruct (on_key a b) eqn:E; [| reflexivity].
    apply on_key_true in E. contradiction.
Qed.

Lemma on_key_congr a a' b : row_key a = row_key a' -> on_key a b = on_key a' b.
Proof.
  unfold on_key, row_key. intros H. inversion H as [[Hs Hd]].
  rewrite Hs, Hd. reflexivity.
Qed.

Lemma row_key_update_set t s : row_key (update_set t s) = row_key t.
Proof. reflexivity. Qed.

Lemma update_set_same_key t s : on_key t s = true -> update_set t s = s.
Proof.
  intros H. apply on_key_true in H. unfold row_key in H.
  destruct s, t. simpl in *. inversion H; subst. reflexivity.
Qed.

Lemma has_dup_key_false rows :
  has_dup_key rows = false -> NoDup (map row_key rows).
Proof.
  induction rows as [| r rest IH]; intros H; [constructor |].
  simpl in H. apply orb_false_iff in H. destruct H as [Hr Hrest].
  simpl. constructor; [| apply IH; exact Hrest].
  intros Hin. apply in_map_iff in Hin. destruct Hin as [x [Hk Hx]].
  assert (E : existsb (on_key r) rest = true).
  { apply existsb_exists. exists x. split; [exact Hx |].
    apply on_key_true. symmetry. exact Hk. }
  congruence.
Qed.

(** What a successful merge checked and built. *)
Lemma merge_stage_inv cn cn' :
  merge_stage cn = Ok cn' ->
  (forall t, In t (processed_prices cn) ->
     length (filter (on_key t) (processed_stage cn)) <= 1) /\
  NoDup (map row_key
           (filter (fun s => negb (existsb (on_key s) (processed_prices cn)))
                   (processed_stage cn))) /\
  processed_stage cn' = [] /\
  processed_prices cn' =
    map (fun t => match find (on_key t) (processed_stage cn) with
                  | Some s => update_set t s
                  | None => t
                  end) (processed_prices cn)
    ++ filter (fun s => negb (existsb (on_key s) (processed_prices cn)))
              (processed_stage cn).
Proof.
  unfold merge_stage. intros H.
  destruct (existsb _ (processed_prices cn)) eqn:Em; [discriminate |].
  destruct (has_dup_key _) eqn:Ed; [discriminate |].
  inversion H; subst; clear H. simpl. repeat split.
  - intros t Ht.
    destruct (Nat.leb_spec (length (filter (on_key t) (processed_stage cn))) 1)
      as [Hle | Hgt]; [exact Hle |].
    assert (E : existsb (fun t => 1 <? length (filter (on_key t) (processed_stage cn)))
                        (processed_prices cn) = true).
    { apply existsb_exists. exists t. split; [exact Ht |].
      apply Nat.ltb_lt. exact Hgt. }
    congruence.
  - apply has_dup_key_false. exact Ed.
Qed.

Lemma filter_none {A} (p : A -> bool) l :
  (forall x, In x l -> p x = false) -> filter p l = [].
Proof.
  induction l as [| x l IH]; intros H; [reflexivity |].
  simpl. rewrite (H x (or_introl eq_refl)). apply IH.
  intros y Hy. apply H. right. exact Hy.
Qed.

Lemma filter_key_le1 t src :
  NoDup (map row_key src) -> length (filter (on_key t) src) <= 1.
Proof.
  induction src as [| s rest IH]; intros H; [simpl; lia |].
  simpl in H. inversion H as [| k ks Hnotin Hrest]; subst.
  simpl. destruct (on_key t s) eqn:Es; [| apply IH; exact Hrest].
  rewrite filter_none; [simpl; lia |].
  intros x Hx. apply on_key_false. intros E. apply Hnotin.
  apply on_key_true in Es. rewrite <- Es, E. apply in_map. exact Hx.
Qed.

Lemma NoDup_map_filter {A B} (f : A -> B) (p : A -> bool) l :
  NoDup (map f l) -> NoDup (map f (filter p l)).
Proof.
  induction l as [| x l IH]; intros H; [constructor |].
  simpl in H. inversion H as [| k ks Hnotin Hrest]; subst.
  simpl. destruct (p x); [| apply IH; exact Hrest].
  simpl. constructor; [| apply IH; exact Hrest].
  intros Hin. apply Hnotin. apply in_map_iff in Hin.
  destruct Hin as [y [Hy Hin]]. apply filter_In in Hin.
  rewrite <- Hy. apply in_map. apply Hin.
Qed.

Lemma merge_checks_NoDup tgt src :
  (forall t, In t tgt -> length (filter (on_key t) src) <= 1) ->
  NoDup (map row_key (filter (fun s => negb (existsb (on_key s) tgt)) src)) ->
  NoDup (map row_key src).
Proof.
  induction src as [| s rest IH]; intros Hm Hi; [constructor |].
  assert (Hm' : forall t, In t tgt -> length (filter (on_key t) rest) <= 1).
  { intros t Ht. specialize (Hm t Ht). simpl in Hm.
    destruct (on_key t s); simpl in Hm; lia. }
  simpl in Hi. simpl. destruct (existsb (on_key s) tgt) eqn:Ep; simpl in Hi.
  - constructor; [| apply IH; assumption].
    intros Hin. apply in_map_iff in Hin. destruct Hin as [s' [Hk Hs']].
    apply existsb_exists in Ep. destruct Ep as [t [Ht Hst]].
    specialize (Hm t Ht). simpl in Hm.
    rewrite on_key_sym in Hst. rewrite Hst in Hm. simpl in Hm.
    assert (Hin : In s' (filter (on_key t) rest)).
    { apply filter_In. split; [exact Hs' |].
      rewrite on_key_sym, (on_key_congr s' s t Hk), on_key_sym. exact Hst. }
    destruct (filter (on_key t) rest); [contradiction | simpl in Hm; lia].
  - inversion Hi as [| k ks Hnotin Hrest]; subst.
    constructor; [| apply IH; assumption].
    intros Hin. apply Hnotin. apply in_map_iff in Hin.
    destruct Hin as [s' [Hk Hs']]. rewrite <- Hk. apply in_map.
    apply filter_In. split; [exact Hs' |].
    assert (E : existsb (on_key s') tgt = existsb (on_key s) tgt).
    { clear -Hk. induction tgt as [| t tgt IHt]; [reflexivity |].
      simpl. rewrite (on_key_congr s' s t Hk), IHt. reflexivity. }
    rewrite E, Ep. reflexivity.
Qed.

(** X17.  [merge_stage] succeeds exactly when no two rows of the
    staging table share a (symbol, date) key, whatever the permanent
    table holds: a key staged twice makes the MERGE fail. *)
Theorem X17_merge_succeeds_iff_distinct_keys (cn : Db) :
  (exists cn', merge_stage cn = Ok cn') <->
  NoDup (map row_key (processed_stage cn)).
Proof.
  split.
  - intros [cn' H]. destruct (merge_stage_inv cn cn' H) as [Hm [Hi _]].
    exact (merge_checks_NoDup _ _ Hm Hi).
  - intros Hnd. unfold merge_stage.
    destruct (existsb _ (processed_prices cn)) eqn:Em.
    + apply existsb_exists in Em. destruct Em as [t [_ Ht]].
      apply Nat.ltb_lt in Ht. pose proof (filter_key_le1 t _ Hnd). lia.
    + rewrite has_dup_key_NoDup by (apply NoDup_map_filter; exact Hnd).
      eexists. reflexivity.
Qed.

Lemma merge_stage_keys cn cn' :
  merge_stage cn = Ok cn' ->
  exists inserted,
    price_keys cn' = price_keys cn ++ map row_key inserted /\
    incl inserted (processed_stage cn) /\
    NoDup (map row_key inserted) /\
    forall s, In s inserted -> ~ In (row_key s) (price_keys cn).
Proof.
  intros H. destruct (merge_stage_inv cn cn' H) as [_ [Hi [_ Hp]]].
  exists (filter (fun s => negb (existsb (on_key s) (processed_prices cn)))
                 (processed_stage cn)).
  split; [| split; [| split]].
  - unfold price_keys. rewrite Hp, map_app, map_map. f_equal.
    apply map_ext. intros t.
    destruct (find (on_key t) (processed_stage cn)); reflexivity.
  - intros s Hs. apply filter_In in Hs. apply Hs.
  - exact Hi.
  - intros s Hs Hin. apply filter_In in Hs. destruct Hs as [_ Hs].
    apply negb_true_iff in Hs. unfold price_keys in Hin.
    apply in_map_iff in Hin. destruct Hin as [t [Hk Ht]].
    assert (E : existsb (on_key s) (processed_prices cn) = true).
    { apply existsb_exists. exists t. split; [exact Ht |].
      apply on_key_true. symmetry. exact Hk. }
    congruence.
Qed.

(** X18.  A successful merge keeps history: the keys of the permanent
    table stay, in their order, and the keys of the inserted rows
    (staged rows whose key the table did not hold) follow them; a row
    whose key is not staged is left as it was; no row is deleted. *)
Theorem X18_merge_keeps_history (cn cn' : Db) :
  merge_stage cn = Ok cn' ->
  (exists inserted,
     price_keys cn' = price_keys cn ++ map row_key inserted /\
     incl inserted (processed_stage cn) /\
     forall s, In s inserted -> ~ In (row_key s) (price_keys cn)) /\
  (forall t, In t (processed_prices cn) ->
     (forall s, In s (processed_stage cn) -> row_key s <> row_key t) ->
     In t (processed_prices cn')) /\
  length (processed_prices cn) <= length (processed_prices cn').
Proof.
  intros H. destruct (merge_stage_inv cn cn' H) as [_ [_ [_ Hp]]].
  split; [| split].
  - destruct (merge_stage_keys cn cn' H) as [inserted [Hk [Hinc [_ Hnew]]]].
    exists inserted. repeat split; assumption.
  - intros t Ht Hno. rewrite Hp. apply in_or_app. left.
    apply in_map_iff. exists t. split; [| exact Ht].
    destruct (find (on_key t) (processed_stage cn)) as [s |] eqn:Ef;
      [| reflexivity].
    apply find_some in Ef. destruct Ef as [Hs Hk].
    apply on_key_true in Hk. exfalso. apply (Hno s Hs). symmetry. exact Hk.
  - rewrite Hp, length_app, length_map. lia.
Qed.

Lemma length_le1_same {A} (l : list A) a b :
  length l <= 1 -> In a l -> In b l -> a = b.
Proof.
  destruct l as [| x [| y l]]; simpl; intros Hl Ha Hb; try contradiction; try lia.
  destruct Ha as [<- | []]. destruct Hb as [<- | []]. reflexivity.
Qed.

(** X19.  After a successful merge every staged row is a row of the
    permanent table, with its key and every column as staged, whether
    it was inserted or overwrote an older row. *)
Theorem X19_merge_lands_staged_rows (cn cn' : Db) (s : StageRow) :
  merge_stage cn = Ok cn' ->
  In s (processed_stage cn) ->
  In s (processed_prices cn').
Proof.
  intros H Hs. destruct (merge_stage_inv cn cn' H) as [Hm [_ [_ Hp]]].
  rewrite Hp. apply in_or_app.
  destruct (existsb (on_key s) (processed_prices cn)) eqn:Ep.
  - left. apply existsb_exists in Ep. destruct Ep as [t [Ht Hst]].
    rewrite on_key_sym in Hst.
    apply in_map_iff. exists t. split; [| exact Ht].
    destruct (find (on_key t) (processed_stage cn)) as [s0 |] eqn:Ef.
    + apply find_some in Ef. destruct Ef as [Hs0 Hk0].
      assert (E : s0 = s).
      { apply (length_le1_same (filter (on_key t) (processed_stage cn)));
          [apply Hm; exact Ht | |]; apply filter_In; split; assumption. }
      subst s0. apply update_set_same_key. exact Hst.
    + exfalso. pose proof (find_none _ _ Ef s Hs) as Hn. congruence.
  - right. apply filter_In. split; [exact Hs |]. rewrite Ep. reflexivity.
Qed.

(** X20.  A successful merge keeps the primary key: if no two rows of
    the permanent table share a (symbol, date) key before it, none do
    after it. *)
Theorem X20_merge_keeps_primary_key (cn cn' : Db) :
  NoDup (price_keys cn) ->
  merge_stage cn = Ok cn' ->
  NoDup (price_keys cn').
Proof.
  intros Hnd H.
  destruct (merge_stage_keys cn cn' H) as [inserted [Hk [_ [Hi Hnew]]]].
  rewrite Hk. apply NoDup_app; [exact Hnd | exact Hi |].
  intros k Hin Hin'. apply in_map_iff in Hin'.
  destruct Hin' as [s [<- Hs]]. exact (Hnew s Hs Hin).
Qed.

Lemma merge_db_sample : merge_stage db_sample = Ok db_sample_merged.
Proof. reflexivity. Qed.

Lemma db_sample_staged_keys : NoDup (map row_key (processed_stage db_sample)).
Proof.
  unfold db_sample, row_key, priced_row, blank_row. simpl.
  repeat (constructor; [simpl; intuition congruence |]). constructor.
Qed.

Lemma X17_merge_succeeds_iff_distinct_keys_witness :
  exists cn', merge_stage db_sample = Ok cn'.
Proof.
  exact (proj2 (X17_merge_succeeds_iff_distinct_keys db_sample)
               db_sample_staged_keys).
Defined.

Lemma X18_merge_keeps_history_witness :
  In (blank_row "XYZ" 7) (processed_prices db_sample_merged) /\
  length (processed_prices db_sample) <= length (processed_prices db_sample_merged).
Proof.
  destruct (X18_merge_keeps_history db_sample db_sample_merged merge_db_sample)
    as [_ [Hkeep Hlen]].
  split; [| exact Hlen].
  apply Hkeep.
  - simpl. right. left. reflexivity.
  - simpl. intros s [<- | [<- | []]]; discriminate.
Defined.

Lemma X19_merge_lands_staged_rows_witness :
  In (priced_row "ABC" 1 5 10) (processed_prices db_sample_merged).
Proof.
  apply (X19_merge_lands_staged_rows db_sample db_sample_merged _ merge_db_sample).
  simpl. left. reflexivity.
Defined.

Lemma X20_merge_keeps_primary_key_witness :
  NoDup (price_keys db_sample_merged).
Proof.
  apply (X20_merge_keeps_primary_key db_sample db_sample_merged);
    [| exact merge_db_sample].
  unfold price_keys, db_sample, row_key, blank_row. simpl.
  repeat (constructor; [simpl; intuition congruence |]). constructor.
Defined.

(** ** main: what every run keeps *)

(** A property of the run that every load and every merge of the
    driver keeps holds of the run at the end, however it ends. *)
Lemma main_loop_invariant (Q : Run -> Prop) :
  (forall r symbol dfp cn1,
     Q r -> load_stage (cn r) symbol dfp = Ok cn1 ->
     Q (mkRun cn1 (processed_rows r + length dfp)
              (calls r ++ [LoadStage symbol (length dfp)]))) ->
  (forall r cn2,
     Q r -> merge_stage (cn r) = Ok cn2 ->
     Q (mkRun cn2 (processed_rows r) (calls r ++ [MergeStage]))) ->
  forall paths i r, Q r -> Q (run_of (main_loop i paths r)).
Proof.
  intros Hload Hmerge. induction paths as [| f rest IH]; intros i r Hr.
  - exact Hr.
  - cbn [main_loop].
    destruct (read_raw_csv f) as [raw |]; [| exact Hr].
    destruct raw as [| b raw]; [apply IH; exact Hr |].
    destruct (dropna_Close (compute_features (b :: raw))) as [| p proc];
      [apply IH; exact Hr |].
    destruct (load_stage (cn r) (symbol_of (abfs_path f)) (p :: proc))
      as [cn1 |] eqn:El; [| exact Hr].
    pose proof (Hload r _ _ cn1 Hr El) as Hr1.
    destruct (i mod 40 =? 0); [| apply IH; exact Hr1].
    unfold do_merge. cbn [cn processed_rows calls].
    destruct (merge_stage cn1) as [cn2 |] eqn:Em; [| exact Hr1].
    apply IH. exact (Hmerge _ cn2 Hr1 Em).
Qed.

Lemma main_invariant (Q : Run -> Prop) :
  (forall r symbol dfp cn1,
     Q r -> load_stage (cn r) symbol dfp = Ok cn1 ->
     Q (mkRun cn1 (processed_rows r + length dfp)
              (calls r ++ [LoadStage symbol (length dfp)]))) ->
  (forall r cn2,
     Q r -> merge_stage (cn r) = Ok cn2 ->
     Q (mkRun cn2 (processed_rows r) (calls r ++ [MergeStage]))) ->
  forall cn0 paths, Q (mkRun cn0 0 []) -> Q (run_of (main cn0 paths)).
Proof.
  intros Hload Hmerge cn0 paths H0. unfold main.
  pose proof (main_loop_invariant Q Hload Hmerge paths 1 _ H0) as H1.
  destruct (main_loop 1 paths (mkRun cn0 0 [])) as [r | e r]; [| exact H1].
  simpl in H1. unfold do_merge.
  destruct (merge_stage (cn r)) as [cn2 |] eqn:Em; [| exact H1].
  exact (Hmerge r cn2 H1 Em).
Qed.

(** X21.  A run that completes leaves the staging table empty. *)
Theorem X21_completed_run_empties_staging (cn0 : Db) (paths : list RawFile)
                                          (r : Run) :
  main cn0 paths = Completed r -> processed_stage (cn r) = [].
Proof.
  unfold main. intros H.
  destruct (main_loop 1 paths (mkRun cn0 0 [])) as [r1 | e r1]; [| discriminate].
  unfold do_merge in H.
  destruct (merge_stage (cn r1)) as [cn2 |] eqn:Em; [| discriminate].
  inversion H; subst. simpl.
  exact (proj1 (proj2 (proj2 (merge_stage_inv _ _ Em)))).
Qed.

(** X23.  However a run ends, it deletes no history and keeps the
    primary key: every key the permanent table held at the start is
    still there at the end, and if no key occurred twice at the start
    none does at the end. *)
Theorem X23_run_keeps_history_and_key (cn0 : Db) (paths : list RawFile) :
  incl (price_keys cn0) (price_keys (cn (run_of (main cn0 paths)))) /\
  (NoDup (price_keys cn0) ->
   NoDup (price_keys (cn (run_of (main cn0 paths))))).
Proof.
  split.
  - apply (main_invariant (fun r => incl (price_keys cn0) (price_keys (cn r)))).
    + intros r symbol dfp cn1 Hr Hl. simpl.
      destruct (load_stage_inv _ _ _ _ Hl) as [_ [_ [_ Hp]]].
      unfold price_keys in *. rewrite Hp. exact Hr.
    + intros r cn2 Hr Hm. simpl.
      destruct (merge_stage_keys _ _ Hm) as [inserted [Hk _]].
      rewrite Hk. apply incl_appl. exact Hr.
    + apply incl_refl.
  - intros Hnd.
    apply (main_invariant (fun r => NoDup (price_keys (cn r)))).
    + intros r symbol dfp cn1 Hr Hl. simpl.
      destruct (load_stage_inv _ _ _ _ Hl) as [_ [_ [_ Hp]]].
      unfold price_keys in *. rewrite Hp. exact Hr.
    + intros r cn2 Hr Hm. simpl.
      destruct (merge_stage_keys _ _ Hm) as [inserted [Hk [_ [Hi Hnew]]]].
      rewrite Hk. apply NoDup_app; [exact Hr | exact Hi |].
      intros k Hin Hin'. apply in_map_iff in Hin'.
      destruct Hin' as [s [<- Hs]]. exact (Hnew s Hs Hin).
    + exact Hnd.
Qed.

Lemma X23_run_keeps_history_and_key_witness :
  NoDup (price_keys (cn (run_of (main db_sample [bad_file])))).
Proof.
  apply (proj2 (X23_run_keeps_history_and_key db_sample [bad_file])).
  unfold price_keys, db_sample, row_key, blank_row. simpl.
  repeat (constructor; [simpl; intuition congruence |]). constructor.
Defined.

Lemma X21_completed_run_empties_staging_witness :
  exists r, main empty_db files41 = Completed r /\ processed_stage (cn r) = [].
Proof.
  destruct main_files41 as [r [Hr _]]. exists r.
  split; [exact Hr |].
  exact (X21_completed_run_empties_staging empty_db files41 r Hr).
Defined.

(** ** main: every listed bar is stored *)

Lemma filter_parallel (l1 : list FeatureRow) (l2 : list RawBar) :
  map Close l1 = map bar_close l2 ->
  map date l1 = map bar_date l2 ->
  map date (filter (fun r => notna (Close r)) l1) =
  map bar_date (filter (fun b => notna (bar_close b)) l2).
Proof.
  revert l2. induction l1 as [| r l1 IH]; intros l2 Hc Hd.
  - destruct l2; [reflexivity | discriminate].
  - destruct l2 as [| b l2]; [discriminate |].
    simpl in Hc, Hd. inversion Hc as [[Hc1 Hc2]]. inversion Hd as [[Hd1 Hd2]].
    simpl. rewrite Hc1. destruct (notna (bar_close b)); simpl.
    + rewrite Hd1. f_equal. apply IH; assumption.
    + apply IH; assumption.
Qed.

Lemma dropna_dates raw :
  map date (dropna_Close (compute_features raw)) =
  map bar_date (filter (fun b => notna (bar_close b)) raw).
Proof.
  unfold dropna_Close. apply filter_parallel; apply raw_column;
    intros t Ht; rewrite (row_at_eq raw t Ht); reflexivity.
Qed.

Lemma file_keys_proc f raw :
  read_raw_csv f = Ok raw ->
  file_keys f =
  map (fun r => (symbol_of (abfs_path f), date r))
      (dropna_Close (compute_features raw)).
Proof.
  intros Hr. unfold file_keys. rewrite Hr.
  rewrite <- (map_map bar_date (fun d => (symbol_of (abfs_path f), d))).
  rewrite <- (map_map date (fun d => (symbol_of (abfs_path f), d))).
  rewrite dropna_dates. reflexivity.
Qed.

Lemma merge_keeps_all_keys cn cn' k :
  merge_stage cn = Ok cn' ->
  In k (stage_keys cn) \/ In k (price_keys cn) ->
  In k (price_keys cn').
Proof.
  intros H Hk.
  destruct (merge_stage_keys cn cn' H) as [inserted [Hkeys _]].
  assert (Hold : In k (price_keys cn) -> In k (price_keys cn'))
    by (intros Hin; rewrite Hkeys; apply in_or_app; left; exact Hin).
  destruct Hk as [Hs | Hp]; [| exact (Hold Hp)].
  unfold stage_keys in Hs. apply in_map_iff in Hs. destruct Hs as [s [<- Hs]].
  destruct (existsb (on_key s) (processed_prices cn)) eqn:Ep.
  - apply Hold. apply existsb_exists in Ep. destruct Ep as [t [Ht Hst]].
    apply on_key_true in Hst. rewrite Hst. unfold price_keys.
    apply in_map. exact Ht.
  - destruct (merge_stage_inv cn cn' H) as [_ [_ [_ Hp]]].
    unfold price_keys. rewrite Hp, map_app. apply in_or_app. right.
    apply in_map. apply filter_In. split; [exact Hs |].
    rewrite Ep. reflexivity.
Qed.

Lemma main_loop_lands paths :
  forall i r r',
    main_loop i paths r = Completed r' ->
    forall k,
      In k (stage_keys (cn r)) \/ In k (price_keys (cn r)) \/
      (exists f, In f paths /\ In k (file_keys f)) ->
      In k (stage_keys (cn r')) \/ In k (price_keys (cn r')).
Proof.
  induction paths as [| f rest IH]; intros i r r' H k Hk.
  - simpl in H. inversion H; subst.
    destruct Hk as [Hk | [Hk | [f [[] _]]]]; [left | right]; exact Hk.
  - cbn [main_loop] in H.
    destruct (read_raw_csv f) as [raw |] eqn:Er; [| discriminate].
    pose proof (file_keys_proc f raw Er) as Hfk.
    assert (Hsplit : In k (stage_keys (cn r)) \/ In k (price_keys (cn r)) \/
                     In k (file_keys f) \/
                     (exists g, In g rest /\ In k (file_keys g))).
    { destruct Hk as [Hk | [Hk | [g [[<- | Hg] Hin]]]]; auto.
      right. right. right. exists g. split; assumption. }
    clear Hk.
    destruct raw as [| b raw].
    { apply (IH _ _ _ H). rewrite Hfk in Hsplit.
      destruct Hsplit as [Hk | [Hk | [[] | Hk]]]; auto. }
    destruct (dropna_Close (compute_features (b :: raw))) as [| p proc] eqn:Ep.
    { apply (IH _ _ _ H). rewrite Hfk in Hsplit.
      destruct Hsplit as [Hk | [Hk | [[] | Hk]]]; auto. }
    destruct (load_stage (cn r) (symbol_of (abfs_path f)) (p :: proc))
      as [cn1 |] eqn:El; [| discriminate].
    destruct (load_stage_inv _ _ _ _ El) as [staged [Hst [Hs Hp]]].
    assert (H1 : In k (stage_keys cn1) \/ In k (price_keys cn1) \/
                 (exists g, In g rest /\ In k (file_keys g))).
    { unfold stage_keys, price_keys in *. rewrite Hs, Hp, map_app.
      rewrite (staged_as_keys _ _ _ Hst), <- Hfk.
      destruct Hsplit as [Hk | [Hk | [Hk | Hk]]]; auto;
        left; apply in_or_app; auto. }
    destruct (i mod 40 =? 0).
    + unfold do_merge in H. cbn [cn processed_rows calls] in H.
      destruct (merge_stage cn1) as [cn2 |] eqn:Em; [| discriminate].
      apply (IH _ _ _ H). cbn [cn].
      destruct H1 as [Hk | [Hk | Hk]]; auto;
        right; left; apply (merge_keeps_all_keys cn1 cn2 k Em); auto.
    + apply (IH _ _ _ H). cbn [cn]. exact H1.
Qed.

Lemma main_loop_counter paths :
  forall i r,
    match main_loop i paths r with
    | Completed r' =>
        processed_rows r' = processed_rows r + length (flat_map file_keys paths)
    | Aborted _ r' =>
        exists n, n <= length paths /\
          processed_rows r' =
          processed_rows r + length (flat_map file_keys (firstn n paths))
    end.
Proof.
  induction paths as [| f rest IH]; intros i r.
  - simpl. lia.
  - cbn [main_loop].
    destruct (read_raw_csv f) as [raw |] eqn:Er.
    2: { exists 0. simpl. split; lia. }
    pose proof (file_keys_proc f raw Er) as Hfk.
    assert (Hlen : length (file_keys f)
                   = length (dropna_Close (compute_features raw)))
      by (rewrite Hfk; apply length_map).
    clear Hfk.
    assert (Hlift : forall j r1,
               processed_rows r1 = processed_rows r + length (file_keys f) ->
               match main_loop j rest r1 with
               | Completed r' =>
                   processed_rows r' =
                   processed_rows r + length (flat_map file_keys (f :: rest))
               | Aborted _ r' =>
                   exists n, n <= length (f :: rest) /\
                     processed_rows r' =
                     processed_rows r
                     + length (flat_map file_keys (firstn n (f :: rest)))
               end).
    { intros j r1 H1. specialize (IH j r1).
      destruct (main_loop j rest r1) as [r' | e r'].
      - cbn [flat_map]. rewrite length_app. lia.
      - destruct IH as [n [Hn Hr']]. exists (S n).
        cbn [firstn flat_map length]. rewrite length_app. split; lia. }
    destruct raw as [| b raw].
    { apply Hlift. rewrite Hlen. cbn. lia. }
    destruct (dropna_Close (compute_features (b :: raw))) as [| p proc].
    { apply Hlift. rewrite Hlen. cbn. lia. }
    destruct (load_stage (cn r) (symbol_of (abfs_path f)) (p :: proc))
      as [cn1 |].
    2: { exists 0. simpl. split; lia. }
    destruct (i mod 40 =? 0).
    + unfold do_merge. cbn [cn processed_rows calls].
      destruct (merge_stage cn1) as [cn2 |].
      * apply Hlift. cbn [processed_rows]. rewrite Hlen. reflexivity.
      * exists 1. cbn [firstn flat_map length processed_rows].
        rewrite app_nil_r, Hlen. split; [lia | reflexivity].
    + apply Hlift. cbn [processed_rows]. rewrite Hlen. reflexivity.
Qed.

(** X22.  When a run completes, the row counter the driver reports is
    the number of bars with a non-null close over all the listed
    files.  When an exception ends the run, the counter is that number
    over the first n listed files for some n: the files staged before
    the exception. *)
Theorem X22_counter_counts_stored_bars (cn0 : Db) (paths : list RawFile) :
  match main cn0 paths with
  | Completed r => processed_rows r = length (flat_map file_keys paths)
  | Aborted _ r =>
      exists n, n <= length paths /\
        processed_rows r = length (flat_map file_keys (firstn n paths))
  end.
Proof.
  unfold main.
  pose proof (main_loop_counter paths 1 (mkRun cn0 0 [])) as H.
  destruct (main_loop 1 paths (mkRun cn0 0 [])) as [r1 | e r1].
  - unfold do_merge. destruct (merge_stage (cn r1)) as [cn2 |].
    + exact H.
    + exists (length paths). rewrite firstn_all. split; [lia | exact H].
  - exact H.
Qed.

(** X24.  After a run that completes, the permanent table holds a row
    for every bar with a non-null close of every listed file that could
    be read, under the file's symbol and the bar's date. *)
Theorem X24_completed_run_stores_every_bar (cn0 : Db) (paths : list RawFile)
                                           (r : Run) (f : RawFile)
                                           (k : string * date_t) :
  main cn0 paths = Completed r ->
  In f paths ->
  In k (file_keys f) ->
  In k (price_keys (cn r)).
Proof.
  unfold main. intros H Hf Hk.
  destruct (main_loop 1 paths (mkRun cn0 0 [])) as [r1 | e r1] eqn:E;
    [| discriminate].
  unfold do_merge in H.
  destruct (merge_stage (cn r1)) as [cn2 |] eqn:Em; [| discriminate].
  inversion H; subst. cbn [cn].
  apply (merge_keeps_all_keys (cn r1) cn2 k Em).
  apply (main_loop_lands paths 1 _ r1 E k).
  right. right. exists f. split; assumption.
Qed.

Lemma X24_completed_run_stores_every_bar_witness :
  exists r,
    main empty_db [good_file "bhp.ax"] = Completed r /\
    In ("BHP.AX"%string, 1%Z) (price_keys (cn r)).
Proof.
  pose proof main_good_file as H.
  destruct (main empty_db [good_file "bhp.ax"]) as [r | e r] eqn:E;
    [| contradiction].
  exists r. split; [reflexivity |].
  apply (X24_completed_run_stores_every_bar empty_db [good_file "bhp.ax"] r
           (good_file "bhp.ax") _ E).
  - left. reflexivity.
  - left. reflexivity.
Defined.

(** ** Symbols *)

Lemma to_upper_not_lower c : is_lower (to_upper c) = false.
Proof. destruct c as [[] [] [] [] [] [] [] []]; reflexivity. Qed.

Lemma to_upper_slash c : Ascii.eqb (to_upper c) "/" = Ascii.eqb c "/".
Proof. destruct c as [[] [] [] [] [] [] [] []]; reflexivity. Qed.

Lemma no_lower_upper s : no_lower (upper s) = true.
Proof.
  induction s as [| c s IH]; [reflexivity |].
  simpl. rewrite to_upper_not_lower, IH. reflexivity.
Qed.

Lemma has_slash_upper s : has_slash (upper s) = has_slash s.
Proof.
  induction s as [| c s IH]; [reflexivity |].
  simpl. rewrite to_upper_slash, IH. reflexivity.
Qed.

Lemma has_slash_path_name s : has_slash (path_name s) = false.
Proof.
  induction s as [| c s IH]; [reflexivity |].
  simpl. destruct (has_slash s) eqn:Es; [exact IH |].
  destruct (Ascii.eqb c "/") eqn:Ec; [exact Es |].
  simpl. rewrite Ec, Es. reflexivity.
Qed.

Lemma has_slash_remove_from pat s :
  has_slash s = false -> forall skip, has_slash (remove_from pat skip s) = false.
Proof.
  induction s as [| c s IH]; intros H skip; [reflexivity |].
  simpl in H. apply orb_false_iff in H. destruct H as [Hc Hs].
  cbn [remove_from]. destruct skip as [| k]; [| apply IH; exact Hs].
  destruct ((0 <? String.length pat) && String.prefix pat (String c s));
    [apply IH; exact Hs |].
  simpl. rewrite Hc. apply IH. exact Hs.
Qed.

(** X25.  The symbol the driver derives from a path never holds a
    slash or a lower-case ASCII letter: it is cut from the last path
    component and upper-cased. *)
Theorem X25_symbol_upper_case_no_slash (abfs_path : string) :
  no_lower (symbol_of abfs_path) = true /\
  has_slash (symbol_of abfs_path) = false.
Proof.
  unfold symbol_of. split; [apply no_lower_upper |].
  rewrite has_slash_upper. apply has_slash_remove_from.
  apply has_slash_path_name.
Qed.

(** ** get_conn *)

Lemma need_set env name :
  is_set env name = true -> _need env name = inl (setting env name).
Proof.
  unfold is_set, _need, setting.
  destruct (env name) as [[| c v] |]; intros H; try discriminate; reflexivity.
Qed.

Lemma need_unset env name :
  is_set env name = false -> _need env name = inr name.
Proof.
  unfold is_set, _need.
  destruct (env name) as [[| c v] |]; intros H; try discriminate; reflexivity.
Qed.

(** A list of variables has at most one first member that is unset or
    empty. *)
Lemma first_unset_unique env (names before1 after1 before2 after2 : list string)
                         n1 n2 :
  names = before1 ++ n1 :: after1 -> forallb (is_set env) before1 = true ->
  is_set env n1 = false ->
  names = before2 ++ n2 :: after2 -> forallb (is_set env) before2 = true ->
  is_set env n2 = false ->
  n1 = n2.
Proof.
  revert before1 before2.
  induction names as [| x names IH]; intros before1 before2 H1 B1 U1 H2 B2 U2.
  - destruct before1; discriminate.
  - destruct before1 as [| b1 before1], before2 as [| b2 before2];
      simpl in H1, H2, B1, B2;
      injection H1 as Hx1 Hr1; injection H2 as Hx2 Hr2.
    + congruence.
    + apply andb_true_iff in B2. destruct B2 as [B2 _]. congruence.
    + apply andb_true_iff in B1. destruct B1 as [B1 _]. congruence.
    + apply andb_true_iff in B1. apply andb_true_iff in B2.
      apply (IH before1 before2); tauto.
Qed.

(** X26.  When SQL_SERVER, SQL_DB, SQL_UID and SQL_PWD are all set to
    non-empty values, [get_conn] hands [pyodbc.connect] the connection
    string built from the four values; otherwise it raises a
    RuntimeError, and the variable it names is the first of the four,
    in that order, that is unset or empty. *)
Theorem X26_get_conn_needs_settings (env : environ) :
  (forallb (is_set env) required_settings = true ->
   get_conn env =
   Connect ("DRIVER={ODBC Driver 18 for SQL Server};"
            ++ "SERVER=" ++ setting env "SQL_SERVER"
            ++ ";DATABASE=" ++ setting env "SQL_DB"
            ++ ";UID=" ++ setting env "SQL_UID"
            ++ ";PWD=" ++ setting env "SQL_PWD" ++ ";"
            ++ "Encrypt=yes;TrustServerCertificate=no;Login Timeout=60;")) /\
  (forallb (is_set env) required_settings = false ->
   exists name, get_conn env = RuntimeError name) /\
  (forall name,
     get_conn env = RuntimeError name <->
     exists before after,
       required_settings = before ++ name :: after /\
       forallb (is_set env) before = true /\
       is_set env name = false).
Proof.
  assert (Hfirst : forall name,
             get_conn env = RuntimeError name ->
             exists before after,
               required_settings = before ++ name :: after /\
               forallb (is_set env) before = true /\
               is_set env name = false).
  { intros name H. unfold get_conn in H.
    destruct (is_set env "SQL_SERVER") eqn:E1.
    2: { rewrite (need_unset _ _ E1) in H. injection H as <-.
         exists [], ["SQL_DB"; "SQL_UID"; "SQL_PWD"]%string.
         split; [reflexivity | split; [reflexivity | exact E1]]. }
    rewrite (need_set _ _ E1) in H.
    destruct (is_set env "SQL_DB") eqn:E2.
    2: { rewrite (need_unset _ _ E2) in H. injection H as <-.
         exists ["SQL_SERVER"%string], ["SQL_UID"; "SQL_PWD"]%string.
         split; [reflexivity |].
         split; [simpl; rewrite E1; reflexivity | exact E2]. }
    rewrite (need_set _ _ E2) in H.
    destruct (is_set env "SQL_UID") eqn:E3.
    2: { rewrite (need_unset _ _ E3) in H. injection H as <-.
         exists ["SQL_SERVER"; "SQL_DB"]%string, ["SQL_PWD"%string].
         split; [reflexivity |].
         split; [simpl; rewrite E1, E2; reflexivity | exact E3]. }
    rewrite (need_set _ _ E3) in H.
    destruct (is_set env "SQL_PWD") eqn:E4.
    2: { rewrite (need_unset _ _ E4) in H. injection H as <-.
         exists ["SQL_SERVER"; "SQL_DB"; "SQL_UID"]%string, [].
         split; [reflexivity |].
         split; [simpl; rewrite E1, E2, E3; reflexivity | exact E4]. }
    rewrite (need_set _ _ E4) in H. discriminate. }
  assert (Hraise : forallb (is_set env) required_settings = false ->
                   exists name, get_conn env = RuntimeError name).
  { unfold required_settings. simpl. intros H. unfold get_conn.
    destruct (is_set env "SQL_SERVER") eqn:E1;
      [rewrite (need_set _ _ E1) | rewrite (need_unset _ _ E1); eexists; reflexivity].
    destruct (is_set env "SQL_DB") eqn:E2;
      [rewrite (need_set _ _ E2) | rewrite (need_unset _ _ E2); eexists; reflexivity].
    destruct (is_set env "SQL_UID") eqn:E3;
      [rewrite (need_set _ _ E3) | rewrite (need_unset _ _ E3); eexists; reflexivity].
    destruct (is_set env "SQL_PWD") eqn:E4;
      [discriminate | rewrite (need_unset _ _ E4); eexists; reflexivity]. }
  split; [| split; [exact Hraise |]].
  - unfold required_settings. simpl. intros H.
    apply andb_true_iff in H. destruct H as [E1 H].
    apply andb_true_iff in H. destruct H as [E2 H].
    apply andb_true_iff in H. destruct H as [E3 H].
    apply andb_true_iff in H. destruct H as [E4 _].
    unfold get_conn.
    rewrite (need_set _ _ E1), (need_set _ _ E2), (need_set _ _ E3),
            (need_set _ _ E4).
    reflexivity.
  - intros name. split; [apply Hfirst |].
    intros [before [after [Hreq [Hb Hn]]]].
    assert (Hnot : forallb (is_set env) required_settings = false).
    { rewrite Hreq, forallb_app. simpl. rewrite Hn.
      rewrite andb_false_r. reflexivity. }
    destruct (Hraise Hnot) as [name' Hname'].
    destruct (Hfirst name' Hname') as [before' [after' [Hreq' [Hb' Hn']]]].
    rewrite Hname'. f_equal.
    exact (first_unset_unique env required_settings before' after' before after
             name' name Hreq' Hb' Hn' Hreq Hb Hn).
Qed.

Lemma X26_get_conn_needs_settings_witness :
  get_conn env_full =
    Connect ("DRIVER={ODBC Driver 18 for SQL Server};"
             ++ "SERVER=srv;DATABASE=prices;UID=etl;PWD=secret;"
             ++ "Encrypt=yes;TrustServerCertificate=no;Login Timeout=60;") /\
  get_conn env_sample = RuntimeError "SQL_DB".
Proof.
  split.
  - exact (proj1 (X26_get_conn_needs_settings env_full) eq_refl).
  - apply (proj2 (proj2 (X26_get_conn_needs_settings env_sample))).
    exists ["SQL_SERVER"%string], ["SQL_UID"; "SQL_PWD"]%string.
    split; [reflexivity | split; reflexivity].
Defined.

(** ** compute_features: log returns and relative volume *)

(** X27.  On every row after the first, Log_Returns is the natural
    logarithm of the close divided by the previous close where that is
    a finite number, and 0 otherwise (a null close on either side, a
    ratio that is zero, negative or infinite). *)
Theorem X27_log_returns_finite_or_zero (df : list RawBar) (k : nat) :
  S k < length df ->
  Log_Returns (row_at df (S k)) =
  match np_log (fdiv (Close (row_at df (S k))) (Close (row_at df k))) with
  | Fin x => Fin x
  | _ => Fin 0
  end.
Proof.
  intros Hk.
  assert (Hk0 : k < length df) by lia.
  assert (Hc : S k < length (closes df)) by (rewrite length_closes; exact Hk).
  rewrite (close_row_at df k Hk0), (close_row_at df (S k) Hk).
  rewrite (row_at_eq df (S k) Hk). simpl.
  rewrite at_log_ratio by exact Hc. rewrite at_shift by exact Hc.
  simpl. rewrite Nat.sub_0_r.
  destruct (np_log _); reflexivity.
Qed.

Lemma X27_log_returns_finite_or_zero_witness :
  Log_Returns (row_at bars5 1) = Fin (ln (2 / 1)) /\
  Log_Returns (row_at bars01 1) = Fin 0.
Proof.
  split.
  - rewrite (X27_log_returns_finite_or_zero bars5 0) by (simpl; lia).
    rewrite !row_at_eq by (simpl; lia). cbn -[Rsign].
    rewrite (Rsign_pos 1) by lra. cbn -[Rsign].
    rewrite Rsign_pos by lra. reflexivity.
  - rewrite (X27_log_returns_finite_or_zero bars01 0) by (simpl; lia).
    rewrite !row_at_eq by (simpl; lia). cbn -[Rsign].
    rewrite Rsign_zero. rewrite Rsign_pos by lra. reflexivity.
Defined.

Lemma volume_row_at df t :
  t < length df -> Volume (row_at df t) = at_ (volumes df) t.
Proof.
  intros Ht. rewrite (row_at_eq df t Ht). simpl.
  unfold volumes. rewrite at_map_bar by reflexivity. reflexivity.
Qed.

(** X28.  On a steady volume series (every volume the same non-zero
    number v), from the 20th row on Volume_Sma_20 is v and Volume_Ratio
    is 1. *)
Theorem X28_steady_volume_ratio_one (df : list RawBar) (v : R) (t : nat) :
  volumes df = repeat (Fin v) (length df) ->
  v <> 0%R ->
  19 <= t -> t < length df ->
  Volume_Sma_20 (row_at df t) = Fin v /\
  Volume_Ratio (row_at df t) = Fin 1.
Proof.
  intros Hflat Hv H19 Ht.
  assert (Hl : t < length (volumes df))
    by (unfold volumes; rewrite length_map; exact Ht).
  assert (Hs : Volume_Sma_20 (row_at df t) = Fin v).
  { rewrite (row_at_eq df t Ht). simpl. unfold Col.Volume_Sma_20.
    rewrite at_rolling_mean_fin; [| | lia | exact Hl].
    - rewrite Hflat. unfold trailing_mean.
      rewrite (trailing_repeat v (length df) 20 t) by lia.
      f_equal. unfold Rsum. simpl. lra.
    - rewrite Hflat. apply forallb_repeat_fin. }
  split; [exact Hs |].
  rewrite (volume_ratio_row df t Ht), Hs, (volume_row_at df t Ht), Hflat.
  rewrite at_repeat by exact Ht. rewrite fdiv_fin by exact Hv.
  f_equal. field. exact Hv.
Qed.

Lemma X28_steady_volume_ratio_one_witness :
  Volume_Sma_20 (row_at bars_steady 25) = Fin 50 /\
  Volume_Ratio (row_at bars_steady 25) = Fin 1.
Proof.
  apply (X28_steady_volume_ratio_one bars_steady 50 25).
  - reflexivity.
  - lra.
  - lia.
  - simpl; lia.
Defined.
